(** * PyCG call-graph construction pass: [pycg/processing/cgprocessor.py]

    A shallow embedding of [CallGraphProcessor] and the properties of its
    edge resolution, attribute-chain heuristics and reachable-function
    query.  The collaborators of the pass ([ProcessingBase], [CallGraph],
    [Definition], the managers and [utils]) live in other modules; they
    are modelled from the design document or taken as fields of an
    environment record [Env]. *)

From stdpp Require Import base option list gmap sets strings pretty.

Open Scope string_scope.

Set Warnings "-register-all,-clear-no-such-hyp".

(** ** Definitions ([pycg.machinery.definitions]) *)

(** [utils.constants]: the kinds of definition. *)
Inductive def_type := FUN_DEF | CLS_DEF | NAME_DEF | EXT_DEF.

Global Instance def_type_eq_dec : EqDecision def_type.
Proof. solve_decision. Defined.

(** Modelled from the spec: the [Definition] class of
    [pycg/machinery/definitions.py].  One record per statically named
    entity: its namespace, its kind, the namespaces it may alias, whether
    it is callable, and the origin flag telling analysed source from
    external code. *)
Record Definition_ := mkDefinition {
  fullns : string;
  def_kind : def_type;
  points_to : list string;
  callable : bool;
  external : bool
}.

Definition get_ns (d : Definition_) : string := fullns d.
Definition get_type (d : Definition_) : def_type := def_kind d.
Definition is_callable (d : Definition_) : bool := callable d.
Definition is_function_def (d : Definition_) : bool :=
  bool_decide (def_kind d = FUN_DEF).
Definition is_ext_def (d : Definition_) : bool := external d.

(** What [decode_node] yields for an expression: a [Definition], or any
    other value (a literal, [None]), which the pass tells apart with
    [isinstance(d, Definition)]. *)
Inductive Decoded :=
| IsDef (d : Definition_)
| NotDef (repr : string).

(** ** Syntax trees ([ast]) *)

(** The node classes the pass distinguishes.  [Generic] stands for every
    other class: [ast.NodeVisitor.generic_visit] visits its children in
    field order.  A keyword of a call is a pair of its optional name and
    its value. *)
Inductive node :=
| Name (id : string)
| Attribute (value : node) (attr : string)
| Call (func : node) (args : list node) (keywords : list (option string * node))
| Lambda (body : node)
| FunctionDef (name : string) (decorator_list : list node) (body : list node)
| ClassDef (name : string) (body : list node)
| Generic (children : list node).

(** [isinstance(node, ast.Attribute)] *)
Definition is_Attribute (n : node) : bool :=
  match n with Attribute _ _ => true | _ => false end.

(** [getattr(node, "id", None)]: only [ast.Name] has an [id]. *)
Definition getattr_id (n : node) : option string :=
  match n with Name id => Some id | _ => None end.

(** ** The call graph ([pycg.machinery.callgraph]) *)

(** Modelled from the spec: the [CallGraph] class of
    [pycg/machinery/callgraph.py].  A node set and an edge set, each with
    its own insertion, idempotent under repetition: [add_node] inserts a
    namespace into the nodes, [add_edge] a pair into the edges. *)
Record CallGraph := mkCallGraph {
  nodes : gset string;
  edges : gset (string * string)
}.

Definition empty_cg : CallGraph := mkCallGraph ∅ ∅.

Definition cg_add_node (name : string) (g : CallGraph) : CallGraph :=
  mkCallGraph ({[name]} ∪ nodes g) (edges g).

Definition cg_add_edge (src dest : string) (g : CallGraph) : CallGraph :=
  mkCallGraph (nodes g) ({[(src, dest)]} ∪ edges g).


(** ** Scopes ([pycg.machinery.scopes]) *)

(** Modelled from the spec: the [ScopeItem] class of
    [pycg/machinery/scopes.py].  The local definitions by bare name and
    the enclosing scope.  The lambda counter, the one field the pass
    mutates, is kept per scope namespace in the processor state. *)
Inductive ScopeItem := mkScope {
  get_defs : gmap string Definition_;
  parent : option ScopeItem
}.

(** The scopes met by [while current_scope: ...; current_scope =
    current_scope.parent], innermost first. *)
Fixpoint scope_chain (s : ScopeItem) : list ScopeItem :=
  match s with
  | mkScope _ None => [s]
  | mkScope _ (Some s') => s :: scope_chain s'
  end.

(** ** Processor state *)

(** The events of a run that the temporal properties observe. *)
Inductive event :=
| EvTransitiveClosure (modname : string)
| EvVisit (modname : string).

Global Instance event_eq_dec : EqDecision event.
Proof. solve_decision. Defined.

(** The objects shared by every processor of a run: the call graph, the
    lambda counters of the scope manager's scopes (by scope namespace),
    the set of modules already analysed, and the events logged so far. *)
Record Stores := mkStores {
  call_graph : CallGraph;
  lambda_counter : gmap string nat;
  modules_analyzed : gset string;
  events : list event
}.

(** The fields of a [CallGraphProcessor]: those of the instance, and the
    shared objects it was constructed with. *)
Record Processor := mkProcessor {
  modname : string;
  closured : gmap string (list string);
  current_ns : string;
  last_called_names : list string;
  stores : Stores
}.

Definition graph (p : Processor) : CallGraph := call_graph (stores p).

Definition set_current_ns (ns : string) (p : Processor) : Processor :=
  mkProcessor (modname p) (closured p) ns (last_called_names p) (stores p).

Definition set_last_called_names (names : list string) (p : Processor) : Processor :=
  mkProcessor (modname p) (closured p) (current_ns p) names (stores p).

Definition set_stores (s : Stores) (p : Processor) : Processor :=
  mkProcessor (modname p) (closured p) (current_ns p) (last_called_names p) s.

Definition set_call_graph (g : CallGraph) (s : Stores) : Stores :=
  mkStores g (lambda_counter s) (modules_analyzed s) (events s).

Definition set_lambda_counter (c : gmap string nat) (s : Stores) : Stores :=
  mkStores (call_graph s) c (modules_analyzed s) (events s).

Definition log_event (e : event) (s : Stores) : Stores :=
  mkStores (call_graph s) (lambda_counter s) (modules_analyzed s) (events s ++ [e]).

Definition mark_analyzed (m : string) (s : Stores) : Stores :=
  mkStores (call_graph s) (lambda_counter s) ({[m]} ∪ modules_analyzed s) (events s).

(** [self.call_graph.add_node(name)] and
    [self.call_graph.add_edge(src, dest)] *)
Definition add_node (name : string) (p : Processor) : Processor :=
  set_stores (set_call_graph (cg_add_node name (graph p)) (stores p)) p.

Definition add_edge (src dest : string) (p : Processor) : Processor :=
  set_stores (set_call_graph (cg_add_edge src dest (graph p)) (stores p)) p.

(** ** The collaborators of the pass *)

(** What the pass reads from the managers and from [ProcessingBase],
    none of which it mutates: the definition store and the closure it
    computes, the scopes, the name-resolution helpers of the base class,
    the constants of [utils], the table of built-ins, and the trees and
    imports of the modules of the program. *)
Record Env := mkEnv {
  (** [def_manager.get(ns)] *)
  def_manager : gmap string Definition_;
  (** the mapping [def_manager.transitive_closure()] returns *)
  transitive_closure : gmap string (list string);
  (** [scope_manager.get_scope(ns)] *)
  scopes : gmap string ScopeItem;
  (** [self.retrieve_call_names(node)] *)
  retrieve_call_names : Processor → node → list string;
  (** [self.decode_node(node)] *)
  decode_node : Processor → node → list Decoded;
  (** [self._retrieve_parent_names(node)] *)
  retrieve_parent_names : Processor → node → list string;
  (** [self.find_cls_fun_ns(cls_name, fn)] *)
  find_cls_fun_ns : string → string → list string;
  (** [utils.get_lambda_name(counter)] *)
  get_lambda_name : nat → string;
  (** [utils.constants.BUILTIN_NAME] and [utils.constants.CLS_INIT] *)
  BUILTIN_NAME : string;
  CLS_INIT : string;
  (** the names in [__builtins__] *)
  builtins : list string;
  (** [ast.parse(self.contents, self.filename)] for each module that has
      a file, and [import_manager.get_imports(modname)] *)
  trees : gmap string node;
  imports : string → list string
}.

(** Modelled from the spec: [utils.join_ns], the dotted join of two
    namespaces. *)
Definition join_ns (a b : string) : string := a ++ "." ++ b.

(** ** Exceptions and the state monad of the visitor *)

Inductive error := AttributeError | TypeError | OSError.

Inductive result (A : Type) :=
| Ok (a : A)
| Raise (e : error).
Arguments Ok {A} a.
Arguments Raise {A} e.

Definition M (A : Type) : Type := Processor → result (A * Processor).

Definition ret {A} (a : A) : M A := λ p, Ok (a, p).
Definition bind {A B} (m : M A) (k : A → M B) : M B :=
  λ p, match m p with
       | Ok (a, p') => k a p'
       | Raise e => Raise e
       end.
Definition modify (f : Processor → Processor) : M unit := λ p, Ok (tt, f p).

Notation "m ;;; k" := (bind m (λ _, k))
  (at level 90, right associativity).
Notation "'let*' x ':=' m 'in' k" := (bind m (λ x, k))
  (at level 10, x name, m at level 100, k at level 200).

(** [for x in l: f(x)] *)
Definition for_each {A} (f : A → M unit) : list A → M unit :=
  fix go (l : list A) : M unit :=
    match l with
    | [] => ret tt
    | x :: l' => f x ;;; go l'
    end.

Section Pass.
Context (E : Env).

(** Modelled from the spec: [scope_manager.get_def(current_ns, name)],
    the lookup of a bare name that walks outward through the enclosing
    scopes. *)
Definition lookup_chain (name : string) (chain : list ScopeItem) : option Definition_ :=
  list_find (λ s, is_Some (get_defs s !! name)) chain
    ≫= λ '(_, s), get_defs s !! name.

Definition get_def (ns name : string) : option Definition_ :=
  scopes E !! ns ≫= λ s, lookup_chain name (scope_chain s).

(** *** [has_ext_parent] (lines 126-137) *)

(** [defi = self.def_manager.get(parent); defi and defi.is_ext_def()] *)
Definition is_ext_name (parent : string) : bool :=
  match def_manager E !! parent with
  | Some defi => is_ext_def defi
  | None => false
  end.

Fixpoint has_ext_parent (p : Processor) (n : node) : bool :=
  match n with
  | Attribute value _ =>
      if existsb is_ext_name (retrieve_parent_names E p n) then true
      else has_ext_parent p value
  | _ => false
  end.

(** *** [get_full_attr_names] (lines 139-157) *)

(** The first loop: [name] is the dotted suffix built so far. *)
Fixpoint attr_loop (name : string) (n : node) : string * node :=
  match n with
  | Attribute value attr =>
      attr_loop (if bool_decide (name = "") then attr else attr ++ "." ++ name) value
  | _ => (name, n)
  end.

Definition get_full_attr_names (p : Processor) (n : node) : list string :=
  let '(name, root) := attr_loop "" n in
  match getattr_id root with
  | None => []
  | Some id =>
      match get_def (current_ns p) id with
      | Some defi =>
          match closured p !! get_ns defi with
          | Some ids => (λ id, id ++ "." ++ name) <$> ids
          | None => []
          end
      | None => []
      end
  end.

(** *** [is_builtin] (lines 159-160) *)
Definition is_builtin (name : string) : bool :=
  bool_decide (name ∈ builtins E).

(** *** [visit_FunctionDef] (lines 44-55)

    The class body defines the method twice; this second definition is
    the one bound in the class. *)

(** [for name in names: self.call_graph.add_edge(self.current_ns, name)] *)
Definition add_edges_to (names : list string) (p : Processor) : Processor :=
  foldl (λ p name, add_edge (current_ns p) name p) p names.

(** The body of the loop over [decoded] (lines 47-53). *)
Definition decoded_edges (d : Decoded) (p : Processor) : Processor :=
  match d with
  | NotDef _ => p
  | IsDef d => add_edges_to (default [] (closured p !! get_ns d)) p
  end.

Definition decorator_edges (decorator : node) (p : Processor) : Processor :=
  foldl (λ p d, decoded_edges d p) p (decode_node E p decorator).

(** Modelled from the spec: the push/pop discipline of
    [ProcessingBase.visit_FunctionDef], [visit_Lambda] and
    [visit_ClassDef].  While the body is visited the current namespace
    is the join of the enclosing namespace and the name; it is restored
    on exit. *)
Definition in_namespace (name : string) (m : M unit) : M unit :=
  λ p, match m (set_current_ns (join_ns (current_ns p) name) p) with
       | Ok (a, p') => Ok (a, set_current_ns (current_ns p) p')
       | Raise e => Raise e
       end.

(** *** [visit_Lambda] (lines 35-42) *)

(** Modelled from the spec: [scope_manager.get_scope(ns)] followed by
    [ScopeItem.inc_lambda_counter()], which advances the counter of the
    scope and returns the new ordinal (the first lambda of a scope has
    ordinal 1).  A namespace without a scope yields [None], on which the
    method call raises [AttributeError]. *)
Definition inc_lambda_counter : M nat :=
  λ p, match scopes E !! current_ns p with
       | None => Raise AttributeError
       | Some _ =>
           let counter := S (default 0 (lambda_counter (stores p) !! current_ns p)) in
           Ok (counter,
               set_stores (set_lambda_counter
                 (<[current_ns p := counter]> (lambda_counter (stores p))) (stores p)) p)
       end.

(** *** [visit_Call] (lines 57-100) *)

(** Lines 70-78: the callee resolved to no name. *)
Definition call_fallback (func : node) (p : Processor) : Processor :=
  if is_Attribute func && has_ext_parent p func then
    add_edges_to (get_full_attr_names p func) p
  else
    match getattr_id func with
    | Some id =>
        if negb (bool_decide (id = "")) && is_builtin id then
          add_edge (current_ns p) (join_ns (BUILTIN_NAME E) id) p
        else p
    | None => p
    end.

(** Lines 82-100: one candidate namespace. *)
Definition call_pointer (pointer : string) (p : Processor) : Processor :=
  match def_manager E !! pointer with
  | None => p
  | Some pointer_def =>
      let p1 := if is_callable pointer_def
                then add_edge (current_ns p) pointer p else p in
      if bool_decide (get_type pointer_def = CLS_DEF) then
        add_edges_to (find_cls_fun_ns E pointer (CLS_INIT E)) p1
      else p1
  end.

(** Lines 69-100: what [visit_Call] does once the children are visited. *)
Definition resolve_call (n func : node) (p : Processor) : Processor :=
  match retrieve_call_names E p n with
  | [] => call_fallback func p
  | names =>
      foldl (λ p pointer, call_pointer pointer p)
        (set_last_called_names names p) names
  end.

(** *** The visitor *)

(** [self.visit(node)]: the methods of [CallGraphProcessor] on the
    classes it overrides, the walk of [ProcessingBase] on the others. *)
Fixpoint visit (n : node) : M unit :=
  match n with
  | Name _ => ret tt
  | Attribute value _ => visit value
  | Call func args keywords =>
      for_each visit args ;;;
      for_each (λ keyword, match keyword with (_, value) => visit value end) keywords ;;;
      visit func ;;;
      modify (resolve_call n func)
  | Lambda body =>
      let* counter := inc_lambda_counter in
      let lambda_name := get_lambda_name E counter in
      modify (λ p, add_node (join_ns (current_ns p) lambda_name) p) ;;;
      in_namespace lambda_name (visit body)
  | FunctionDef name decorator_list body =>
      for_each (λ decorator, visit decorator ;;; modify (decorator_edges decorator))
        decorator_list ;;;
      modify (λ p, add_node (join_ns (current_ns p) name) p) ;;;
      in_namespace name (for_each visit body)
  | ClassDef name body => in_namespace name (for_each visit body)
  | Generic children => for_each visit children
  end.

(** *** [get_all_reachable_functions] (lines 111-124) *)

(** The body of the loop over [current_scope.get_defs().items()], on the
    pair of the sets [reachable] and [names].  Iterating over the [None]
    that [self.closured.get(ns)] returns for a missing entry raises
    [TypeError]. *)
Definition reachable_item (p : Processor) (acc : gset string * gset string)
    (item : string * Definition_) : result (gset string * gset string) :=
  let '(reachable, names) := acc in
  let '(name, defi) := item in
  if is_function_def defi && negb (bool_decide (name ∈ names)) then
    match closured p !! get_ns defi with
    | None => Raise TypeError
    | Some items => Ok (list_to_set items ∪ reachable, {[name]} ∪ names)
    end
  else Ok acc.

Fixpoint reachable_items (p : Processor) (acc : gset string * gset string)
    (items : list (string * Definition_)) : result (gset string * gset string) :=
  match items with
  | [] => Ok acc
  | item :: items' =>
      match reachable_item p acc item with
      | Ok acc' => reachable_items p acc' items'
      | Raise e => Raise e
      end
  end.

(** The [while current_scope] loop, on the scopes it meets. *)
Fixpoint reachable_scopes (p : Processor) (acc : gset string * gset string)
    (chain : list ScopeItem) : result (gset string * gset string) :=
  match chain with
  | [] => Ok acc
  | s :: chain' =>
      match reachable_items p acc (map_to_list (get_defs s)) with
      | Ok acc' => reachable_scopes p acc' chain'
      | Raise e => Raise e
      end
  end.

(** [scope_manager.get_scope(ns)] and the scopes enclosing it. *)
Definition scopes_from (ns : string) : list ScopeItem :=
  match scopes E !! ns with
  | Some s => scope_chain s
  | None => []
  end.

Definition get_all_reachable_functions : M (gset string) :=
  λ p, match reachable_scopes p (∅, ∅) (scopes_from (current_ns p)) with
       | Ok (reachable, _) => Ok (reachable, p)
       | Raise e => Raise e
       end.

(** *** [__init__], [analyze], [analyze_submodules] (lines 10-27, 102-109) *)

(** [CallGraphProcessor(filename, modname, ...)]: the base constructor
    records the module as analysed, then line 24 computes the closure.
    Modelled from the spec: the module's own namespace is the current
    namespace when its tree is entered. *)
Definition new_processor (m : string) (s : Stores) : Processor :=
  mkProcessor m (transitive_closure E) m []
    (log_event (EvTransitiveClosure m) (mark_analyzed m s)).

(** Modelled from the spec: [ProcessingBase.analyze_submodules], which
    constructs a processor of the given class, with the managers and
    shared objects handed over, for every import that has a file and is
    not in the analysed set, and runs its [analyze] (here [run]). *)
Fixpoint analyze_submodules (run : string → Stores → option (result Stores))
    (imps : list string) (s : Stores) : option (result Stores) :=
  match imps with
  | [] => Some (Ok s)
  | imp :: imps' =>
      if bool_decide (imp ∈ modules_analyzed s) then
        analyze_submodules run imps' s
      else if bool_decide (trees E !! imp = None) then
        analyze_submodules run imps' s
      else
        match run imp s with
        | Some (Ok s') => analyze_submodules run imps' s'
        | other => other
        end
  end.

(** Constructing the processor of module [m] and running its [analyze]
    (lines 107-109).  A module without a file cannot be opened by the
    constructor.  [None] is a recursion deeper than [fuel]. *)
Fixpoint analyze (fuel : nat) (m : string) (s : Stores) : option (result Stores) :=
  match fuel with
  | 0 => None
  | S fuel' =>
      match trees E !! m with
      | None => Some (Raise OSError)
      | Some tree =>
          let p := new_processor m s in
          match visit tree (set_stores (log_event (EvVisit m) (stores p)) p) with
          | Raise e => Some (Raise e)
          | Ok (_, p') => analyze_submodules (analyze fuel') (imports E m) (stores p')
          end
      end
  end.

End Pass.

(** ** Notions in which the properties are stated *)

(** The identifier or expression an attribute chain [a.b.c] starts
    from, its attribute names from the root outward ([b], [c]), and its
    levels from the full expression inward ([a.b.c], [a.b]). *)
Fixpoint chain_root (n : node) : node :=
  match n with
  | Attribute value _ => chain_root value
  | _ => n
  end.

Fixpoint chain_attrs (n : node) : list string :=
  match n with
  | Attribute value attr => chain_attrs value ++ [attr]
  | _ => []
  end.

Fixpoint chain_levels (n : node) : list node :=
  match n with
  | Attribute value _ => n :: chain_levels value
  | _ => []
  end.

(** The dotted join of a list of names. *)
Fixpoint dotted (l : list string) : string :=
  match l with
  | [] => ""
  | [a] => a
  | a :: l' => a ++ "." ++ dotted l'
  end.

(** [p'] continues [p]: the fields of the instance other than
    [last_called_names] are those of [p], no module was analysed and no
    event logged in between, and the graph only grew. *)
Definition extends (p p' : Processor) : Prop :=
  modname p' = modname p ∧ closured p' = closured p ∧
  current_ns p' = current_ns p ∧
  modules_analyzed (stores p') = modules_analyzed (stores p) ∧
  events (stores p') = events (stores p) ∧
  nodes (graph p) ⊆ nodes (graph p') ∧
  edges (graph p) ⊆ edges (graph p').

(** From [p] to [p'] exactly the edges from the current namespace to the
    namespaces in [T] were added. *)
Definition adds_edges (p p' : Processor) (T : string → Prop) : Prop :=
  ∀ caller callee,
    (caller, callee) ∈ edges (graph p') ↔
    (caller, callee) ∈ edges (graph p) ∨ (caller = current_ns p ∧ T callee).

(** [s] holds the function definition [defi] under [name], and no scope
    of [inner] holds a function definition under that name. *)
Definition counted_in (inner : list ScopeItem) (s : ScopeItem)
    (name : string) (defi : Definition_) : Prop :=
  get_defs s !! name = Some defi ∧ is_function_def defi = true ∧
  ∀ s' defi', s' ∈ inner → get_defs s' !! name = Some defi' →
    is_function_def defi' = false.

(** The function definitions the query collects along a scope chain
    (innermost scope first). *)
Definition collected (chain : list ScopeItem) (name : string)
    (defi : Definition_) : Prop :=
  ∃ (inner : list ScopeItem) s outer,
    chain = (inner ++ s :: outer)%list ∧ counted_in inner s name defi.

(** The events of analysing the modules [ms] one after the other: each
    processor computes the closure, then visits its tree. *)
Definition module_events (ms : list string) : list event :=
  ms ≫= λ m, [EvTransitiveClosure m; EvVisit m].

(** The number of closure computations in a log. *)
Definition is_closure_event (e : event) : bool :=
  match e with EvTransitiveClosure _ => true | EvVisit _ => false end.

Definition closure_computations (evs : list event) : nat :=
  length (filter (λ e, is_closure_event e = true) evs).

(** An executable check that every function definition held by a scope
    of the chain has a closure entry. *)
Definition closure_covers (p : Processor) (chain : list ScopeItem) : bool :=
  forallb (λ s,
    forallb (λ item : string * Definition_,
      negb (is_function_def item.2) ||
      bool_decide (is_Some (closured p !! get_ns item.2)))
      (map_to_list (get_defs s))) chain.

(** ** A sample program

    [[
    # main.py                          # sub.py
    import ext, sub                    import main
    def deco(fn): return fn
    def f(): ...
    class C:
        def __init__(self): ...
    @deco
    def g():
        def f(): ...
        ext.path.join()
        len(x)
        C()
        f()()()
        lambda: x
    ]]

    with [ext] an external module.  The answers of the name-resolution
    helpers on the expressions of the program are tabulated. *)
Module Sample.

Definition d_deco := mkDefinition "main.deco" FUN_DEF [] true false.
Definition d_f := mkDefinition "main.f" FUN_DEF [] true false.
Definition d_C := mkDefinition "main.C" CLS_DEF [] true false.
Definition d_init := mkDefinition "main.C.__init__" FUN_DEF [] true false.
Definition d_g := mkDefinition "main.g" FUN_DEF [] true false.
Definition d_gf := mkDefinition "main.g.f" FUN_DEF [] true false.
Definition d_ext := mkDefinition "ext" EXT_DEF [] true true.

Definition defs : gmap string Definition_ :=
  list_to_map [("main.deco", d_deco); ("main.f", d_f); ("main.C", d_C);
               ("main.C.__init__", d_init); ("main.g", d_g);
               ("main.g.f", d_gf); ("ext", d_ext)].

Definition closure : gmap string (list string) :=
  list_to_map [("main.deco", ["main.deco"]); ("main.f", ["main.f"]);
               ("main.C", ["main.C"]); ("main.C.__init__", ["main.C.__init__"]);
               ("main.g", ["main.g"]); ("main.g.f", ["main.g.f"]);
               ("ext", ["ext"])].

Definition scope_main : ScopeItem :=
  mkScope (list_to_map [("deco", d_deco); ("f", d_f); ("C", d_C);
                        ("g", d_g); ("ext", d_ext)]) None.
Definition scope_g : ScopeItem :=
  mkScope (list_to_map [("f", d_gf)]) (Some scope_main).
Definition scope_C : ScopeItem :=
  mkScope (list_to_map [("__init__", d_init)]) (Some scope_main).

Definition call_names (p : Processor) (n : node) : list string :=
  match n with
  | Call (Name id) _ _ =>
      if bool_decide (id = "C") then ["main.C"; "main.ghost"]
      else if bool_decide (id = "f") then ["main.f"]
      else []
  | _ => []
  end.

Definition decode (p : Processor) (n : node) : list Decoded :=
  match n with
  | Name id => if bool_decide (id = "deco") then [IsDef d_deco; NotDef "None"] else []
  | _ => []
  end.

Definition parent_names (p : Processor) (n : node) : list string :=
  match n with
  | Attribute (Name id) _ => [id]
  | Attribute (Attribute (Name id) attr) _ => [id ++ "." ++ attr]
  | _ => []
  end.

Definition cls_fun_ns (cls_name fn : string) : list string :=
  if bool_decide (cls_name = "main.C") then [cls_name ++ "." ++ fn] else [].

Definition ext_path_join : node :=
  Attribute (Attribute (Name "ext") "path") "join".

Definition call_chain : node :=
  Call (Call (Call (Name "f") [] []) [] []) [] [].

Definition def_g : node :=
  FunctionDef "g" [Name "deco"]
    [FunctionDef "f" [] [];
     Call ext_path_join [] [];
     Call (Name "len") [Name "x"] [];
     Call (Name "C") [] [];
     call_chain;
     Lambda (Name "x")].

Definition tree_main : node :=
  Generic [FunctionDef "deco" [] [];
           FunctionDef "f" [] [];
           ClassDef "C" [FunctionDef "__init__" [] []];
           def_g].

Definition tree_sub : node := Generic [].

Definition env : Env :=
  mkEnv defs closure
    (list_to_map [("main", scope_main); ("main.g", scope_g); ("main.C", scope_C)])
    call_names decode parent_names cls_fun_ns
    (λ counter, "<lambda" ++ pretty counter ++ ">")
    "<builtin>" "__init__" ["len"; "print"]
    (list_to_map [("main", tree_main); ("sub", tree_sub)])
    (λ m, if bool_decide (m = "main") then ["sub"; "ext"; "main"] else ["main"]).

Definition fresh : Stores := mkStores empty_cg ∅ ∅ [].

(** The processor of [main] as constructed, and inside the body of [g]. *)
Definition at_main : Processor := new_processor env "main" fresh.
Definition in_g : Processor := set_current_ns "main.g" at_main.

(** The state [visit] leaves, or [p] itself if it raises. *)
Definition after (n : node) (p : Processor) : Processor :=
  match visit env n p with
  | Ok (_, p') => p'
  | Raise _ => p
  end.

(** The stores a run on [main] leaves. *)
Definition final : Stores :=
  match analyze env 3 "main" fresh with
  | Some (Ok s) => s
  | _ => fresh
  end.

(** The same program when the closure was computed before the
    definition of the inner [f] was registered. *)
Definition stale_env : Env :=
  mkEnv defs (delete "main.g.f" closure) (scopes env)
    call_names decode parent_names cls_fun_ns (get_lambda_name env)
    "<builtin>" "__init__" ["len"; "print"] (trees env) (imports env).

Definition stale_in_g : Processor :=
  set_current_ns "main.g" (new_processor stale_env "main" fresh).

End Sample.

(** ** The sample program with a local name that has no definition

    The same program when the name-resolution helper answers the call
    [len(x)] with the namespace [main.len], for which the definition
    store holds nothing. *)
Module Undefined.

Definition call_names (p : Processor) (n : node) : list string :=
  match n with
  | Call (Name id) _ _ =>
      if bool_decide (id = "len") then ["main.len"] else Sample.call_names p n
  | _ => []
  end.

Definition env : Env :=
  mkEnv Sample.defs Sample.closure (scopes Sample.env)
    call_names Sample.decode Sample.parent_names Sample.cls_fun_ns
    (get_lambda_name Sample.env) "<builtin>" "__init__" ["len"; "print"]
    (trees Sample.env) (imports Sample.env).

Definition call_len : node := Call (Name "len") [Name "x"] [].

Definition in_g : Processor :=
  set_current_ns "main.g" (new_processor env "main" Sample.fresh).

End Undefined.

(** ** A function that decorates its own nested function

    [[
    # main.py
    def outer(fn):
        @outer
        @g
        def g(): ...
    ]]

    The decorators of [g] are met in the namespace of [outer]; the name
    [g] decodes to the definition of the nested function itself. *)
Module Nested.

Definition d_outer := mkDefinition "main.outer" FUN_DEF [] true false.
Definition d_g := mkDefinition "main.outer.g" FUN_DEF [] true false.

Definition decode (p : Processor) (n : node) : list Decoded :=
  match n with
  | Name id =>
      if bool_decide (id = "outer") then [IsDef d_outer]
      else if bool_decide (id = "g") then [IsDef d_g]
      else []
  | _ => []
  end.

Definition def_g : node := FunctionDef "g" [Name "outer"; Name "g"] [].

Definition env : Env :=
  mkEnv (list_to_map [("main.outer", d_outer); ("main.outer.g", d_g)])
    (list_to_map [("main.outer", ["main.outer"]);
                  ("main.outer.g", ["main.outer.g"])])
    (list_to_map
       [("main", mkScope (list_to_map [("outer", d_outer)]) None);
        ("main.outer",
         mkScope (list_to_map [("g", d_g)])
           (Some (mkScope (list_to_map [("outer", d_outer)]) None)))])
    (λ _ _, []) decode (λ _ _, []) (λ _ _, [])
    (get_lambda_name Sample.env) "<builtin>" "__init__" []
    (list_to_map [("main", Generic [FunctionDef "outer" [] [def_g]])])
    (λ _, []).

(** The processor of [main] inside the body of [outer]. *)
Definition in_outer : Processor :=
  set_current_ns "main.outer" (new_processor env "main" Sample.fresh).

(** The state the visit of the definition of [g] leaves there. *)
Definition after_g : Processor :=
  match visit env def_g in_outer with
  | Ok (_, p') => p'
  | Raise _ => in_outer
  end.

(** The stores a run on [main] leaves. *)
Definition final : Stores :=
  match analyze env 1 "main" Sample.fresh with
  | Some (Ok s) => s
  | _ => Sample.fresh
  end.

End Nested.

(** ** Notions for the registration of callers *)

(** From [p] to [p'] the current namespace is kept and every new edge
    leaves it. *)
Definition calls_from_current (p p' : Processor) : Prop :=
  current_ns p' = current_ns p ∧
  ∀ caller callee, (caller, callee) ∈ edges (graph p') →
    (caller, callee) ∈ edges (graph p) ∨ caller = current_ns p.

(** From [p] to [p'] the current namespace is kept, the nodes only grow,
    and every new edge leaves the current namespace or a node. *)
Definition callers_registered (p p' : Processor) : Prop :=
  current_ns p' = current_ns p ∧
  nodes (graph p) ⊆ nodes (graph p') ∧
  ∀ caller callee, (caller, callee) ∈ edges (graph p') →
    (caller, callee) ∈ edges (graph p) ∨ caller = current_ns p ∨
    caller ∈ nodes (graph p').


(** The tree holds no class definition. *)
Fixpoint class_free (n : node) : bool :=
  match n with
  | Name _ => true
  | Attribute value _ => class_free value
  | Call func args keywords =>
      forallb class_free args &&
      forallb (λ keyword, let '(_, value) := keyword in class_free value) keywords &&
      class_free func
  | Lambda body => class_free body
  | FunctionDef _ decorator_list body =>
      forallb class_free decorator_list && forallb class_free body
  | ClassDef _ _ => false
  | Generic children => forallb class_free children
  end.

(** The scopes a walk along the [parent] references meets, starting
    from the scope [get_scope] returned (or from [None]). *)
Inductive scope_walk : option ScopeItem → list ScopeItem → Prop :=
| scope_walk_end : scope_walk None []
| scope_walk_step (s : ScopeItem) (chain : list ScopeItem) :
    scope_walk (parent s) chain → scope_walk (Some s) (s :: chain).

(** ** Notions for the further properties *)

(** [caller] is the namespace [ns] or one nested in it. *)
Definition descends (ns caller : string) : Prop :=
  ∃ suffix, caller = ns ++ suffix.

(** From [p] to [p'] the current namespace is kept and every new edge leaves the current namespace or one nested in it. *)
Definition callers_descend (p p' : Processor) : Prop :=
  current_ns p' = current_ns p ∧
  ∀ caller callee, (caller, callee) ∈ edges (graph p') →
    (caller, callee) ∈ edges (graph p) ∨ descends (current_ns p) caller.

(** The modules [ms] were analysed from [s] to [s'], each once and none
    of them analysed before. *)
Definition analysed_once (E : Env) (s s' : Stores) (ms : list string) : Prop :=
  events s' = (events s ++ module_events ms)%list ∧
  modules_analyzed s' = list_to_set ms ∪ modules_analyzed s ∧
  NoDup ms ∧
  ∀ x, x ∈ ms → (x ∉ modules_analyzed s) ∧ is_Some (trees E !! x).

(** From [p] to [p'] the current namespace is kept and so is the lambda
    counter of every scope whose namespace is shorter than it. *)
Definition counters_frame (p p' : Processor) : Prop :=
  current_ns p' = current_ns p ∧
  ∀ ns, (String.length ns < String.length (current_ns p))%nat →
    lambda_counter (stores p') !! ns = lambda_counter (stores p) !! ns.

(** The tree holds no call and no decorated function definition. *)
Fixpoint call_free (n : node) : bool :=
  match n with
  | Name _ => true
  | Attribute value _ => call_free value
  | Call _ _ _ => false
  | Lambda body => call_free body
  | FunctionDef _ decorator_list body =>
      match decorator_list with
      | [] => forallb call_free body
      | _ => false
      end
  | ClassDef _ body => forallb call_free body
  | Generic children => forallb call_free children
  end.


(** The namespaces of the function definitions met in a tree entered in
    namespace [ns], through statements, class bodies and function
    bodies (not through expressions). *)
Fixpoint declared (ns : string) (n : node) : list string :=
  match n with
  | FunctionDef name _ body =>
      join_ns ns name :: flat_map (declared (join_ns ns name)) body
  | ClassDef name body => flat_map (declared (join_ns ns name)) body
  | Generic children => flat_map (declared ns) children
  | _ => []
  end.

(** * Properties *)

(** ** Strings *)

Lemma append_nil_inv (a b : string) : a ++ b = "" → a = "".
Proof. destruct a; [done | discriminate]. Qed.

Lemma length_append (a b : string) :
  String.length (a ++ b) = String.length a + String.length b.
Proof. induction a as [| c a IH]; simpl; [done | by rewrite IH]. Qed.

Lemma join_ns_neq (a b : string) : a ≠ join_ns a b.
Proof.
  intros Heq. apply (f_equal String.length) in Heq.
  unfold join_ns in Heq. rewrite length_append in Heq. simpl in Heq. lia.
Qed.

Lemma dotted_cons (a : string) (l : list string) :
  dotted (a :: l) = if bool_decide (dotted l = "") then
                      match l with [] => a | _ => a ++ "." ++ dotted l end
                    else a ++ "." ++ dotted l.
Proof. destruct l; simpl; [done | by case_bool_decide]. Qed.

Lemma dotted_nonempty (l : list string) :
  Forall (λ a, a ≠ "") l → l ≠ [] → dotted l ≠ "".
Proof.
  intros Hl Hne. destruct Hl as [| a l Ha Hl]; [done |].
  destruct l; simpl; [done |].
  intros Heq. by apply append_nil_inv in Heq.
Qed.

(** ** The call graph store *)

(** Insertion is idempotent. *)
Lemma cg_add_node_idemp (name : string) (g : CallGraph) :
  cg_add_node name (cg_add_node name g) = cg_add_node name g.
Proof. unfold cg_add_node; simpl. f_equal. set_solver. Qed.

Lemma cg_add_edge_idemp (src dest : string) (g : CallGraph) :
  cg_add_edge src dest (cg_add_edge src dest g) = cg_add_edge src dest g.
Proof. unfold cg_add_edge, cg_add_node; simpl. f_equal; set_solver. Qed.

(** ** Continuation of a processor state *)

Lemma extends_refl (p : Processor) : extends p p.
Proof. by split_and!. Qed.

Lemma extends_trans (p1 p2 p3 : Processor) :
  extends p1 p2 → extends p2 p3 → extends p1 p3.
Proof.
  intros (Hm1&Hc1&Hn1&Ha1&He1&Hno1&Hed1) (Hm2&Hc2&Hn2&Ha2&He2&Hno2&Hed2).
  split_and!; [congruence.. | |].
  - by transitivity (nodes (graph p2)).
  - by transitivity (edges (graph p2)).
Qed.

Lemma extends_set_last_called_names (names : list string) (p : Processor) :
  extends p (set_last_called_names names p).
Proof. by split_and!. Qed.

Lemma extends_add_node (name : string) (p : Processor) :
  extends p (add_node name p).
Proof.
  split_and!; [done.. | |]; simpl.
  - apply union_subseteq_r.
  - done.
Qed.

Lemma extends_add_edge (src dest : string) (p : Processor) :
  extends p (add_edge src dest p).
Proof.
  split_and!; [done.. | |]; simpl.
  - done.
  - apply union_subseteq_r.
Qed.

Lemma extends_add_edges_to (names : list string) (p : Processor) :
  extends p (add_edges_to names p).
Proof.
  unfold add_edges_to. revert p.
  induction names as [| name names IH]; intros p; simpl.
  - apply extends_refl.
  - eapply extends_trans; [apply extends_add_edge | apply IH].
Qed.

(** ** Exact accounts of the edges added *)

Lemma adds_edges_none (p : Processor) : adds_edges p p (λ _, False).
Proof. intros a b. naive_solver. Qed.

Lemma adds_edges_weaken (p p' : Processor) (T T' : string → Prop) :
  (∀ x, T x ↔ T' x) → adds_edges p p' T → adds_edges p p' T'.
Proof. intros HT H a b. rewrite (H a b), (HT b). done. Qed.

Lemma adds_edges_trans (p1 p2 p3 : Processor) (T1 T2 : string → Prop) :
  current_ns p2 = current_ns p1 →
  adds_edges p1 p2 T1 → adds_edges p2 p3 T2 →
  adds_edges p1 p3 (λ x, T1 x ∨ T2 x).
Proof.
  intros Hns H1 H2 a b. rewrite (H2 a b), (H1 a b), Hns. naive_solver.
Qed.

Lemma adds_edges_add_edge (dest : string) (p : Processor) :
  adds_edges p (add_edge (current_ns p) dest p) (λ x, x = dest).
Proof.
  intros a b. simpl. rewrite elem_of_union, elem_of_singleton.
  split; [intros [Heq | ?]; [injection Heq as -> ->|] | intros [? | [-> ->]]];
    auto.
Qed.

Lemma current_ns_add_edges_to (names : list string) (p : Processor) :
  current_ns (add_edges_to names p) = current_ns p.
Proof. apply (extends_add_edges_to names p). Qed.

Lemma adds_edges_add_edges_to (names : list string) (p : Processor) :
  adds_edges p (add_edges_to names p) (λ x, x ∈ names).
Proof.
  revert p. induction names as [| name names IH]; intros p.
  - eapply adds_edges_weaken; [| apply adds_edges_none].
    intros x. by rewrite elem_of_nil.
  - eapply adds_edges_weaken; [| eapply adds_edges_trans;
      [| apply (adds_edges_add_edge name) | apply IH] ]; [| done].
    intros x. rewrite elem_of_cons. done.
Qed.

Section Properties.
Context (E : Env).

(** ** Attribute chains *)

Lemma attr_loop_root (name : string) (n : node) :
  (attr_loop name n).2 = chain_root n.
Proof. revert name. induction n; intros; simpl; auto. Qed.

Lemma attr_loop_dotted (acc : list string) (n : node) :
  Forall (λ a, a ≠ "") acc → Forall (λ a, a ≠ "") (chain_attrs n) →
  (attr_loop (dotted acc) n).1 = dotted (chain_attrs n ++ acc).
Proof.
  revert acc. induction n; intros acc Hacc Hn; simpl; try done.
  simpl in Hn. rewrite Forall_app, Forall_singleton in Hn.
  destruct Hn as [Hn Hattr]. rewrite <- app_assoc. simpl. rewrite <- IHn; [| by constructor | done].
  f_equal. destruct acc as [| b acc]; [done |].
  rewrite bool_decide_eq_false_2; [done |].
  by apply dotted_nonempty.
Qed.

Lemma get_full_attr_names_spec (p : Processor) (n : node) (x : string) :
  Forall (λ a, a ≠ "") (chain_attrs n) →
  x ∈ get_full_attr_names E p n ↔
  ∃ id defi ids ns,
    chain_root n = Name id ∧ get_def E (current_ns p) id = Some defi ∧
    closured p !! get_ns defi = Some ids ∧ ns ∈ ids ∧
    x = ns ++ "." ++ dotted (chain_attrs n).
Proof.
  intros Hattrs. unfold get_full_attr_names.
  pose proof (attr_loop_root "" n) as Hroot.
  pose proof (attr_loop_dotted [] n (Forall_nil_2 _) Hattrs) as Hname.
  rewrite app_nil_r in Hname. simpl in Hname.
  destruct (attr_loop "" n) as [name root]. simpl in *. subst.
  destruct (chain_root n) as [id | | | | | |]; simpl;
    try (rewrite elem_of_nil; split; [done | by intros (?&?&?&?&?&?)]).
  destruct (get_def E (current_ns p) id) as [defi |] eqn:Hget;
    [| rewrite elem_of_nil; split; [done |];
       intros (?&?&?&?&?&?&?); simplify_eq ].
  destruct (closured p !! get_ns defi) as [ids |] eqn:Hids;
    [| rewrite elem_of_nil; split; [done |];
       intros (?&?&?&?&?&?&?&?); simplify_eq ].
  rewrite list_elem_of_fmap. split.
  - intros (ns & -> & Hns). by exists id, defi, ids, ns.
  - intros (?&?&?&ns&?&?&?&?&->). simplify_eq. by exists ns.
Qed.

(** C8: [has_ext_parent] is true exactly when, at some level of the
    attribute chain walked from the full expression inward, one of the
    names the parent sub-expression resolves to has a Definition flagged
    as externally defined.  So it is false on an expression that is no
    attribute access, false when the chain bottoms out with no such
    level, and never true for a chain none of whose levels resolves to
    an external Definition. *)
Theorem has_ext_parent_iff (p : Processor) (n : node) :
  has_ext_parent E p n = true ↔
  ∃ level parent defi,
    level ∈ chain_levels n ∧
    parent ∈ retrieve_parent_names E p level ∧
    def_manager E !! parent = Some defi ∧ is_ext_def defi = true.
Proof.
  induction n as [ | value IH attr | | | | | ]; simpl;
    try (split; [done | intros (?&?&?&Hin&_); by apply elem_of_nil in Hin]).
  destruct (existsb _ _) eqn:Hex.
  - split; [intros _ | done].
    apply existsb_exists in Hex as (parent & Hin & Hext).
    unfold is_ext_name in Hext.
    destruct (def_manager E !! parent) as [defi |] eqn:Hdef; [| done].
    exists (Attribute value attr), parent, defi.
    apply list_elem_of_In in Hin.
    split_and!; [apply list_elem_of_here | done..].
  - rewrite IH. split.
    + intros (level & parent & defi & Hin & Hrest).
      exists level, parent, defi. split; [by right | done].
    + intros (level & parent & defi & Hin & Hpar & Hdef & Hext).
      apply elem_of_cons in Hin as [-> | Hin].
      * assert (existsb (is_ext_name E)
          (retrieve_parent_names E p (Attribute value attr)) = true) as Habs.
        { apply existsb_exists. exists parent.
          rewrite <- list_elem_of_In. split; [done |].
          unfold is_ext_name. by rewrite Hdef. }
        congruence.
      * by exists level, parent, defi.
Qed.

(** C10: when the root of the callee's attribute chain is not a bare
    identifier, [get_full_attr_names] returns the empty list, and a call
    whose callee resolves to no name leaves the processor, hence the
    graph, as it was once its children are visited: whatever
    [has_ext_parent] answers, the fallback adds no edge. *)
Theorem non_identifier_root_adds_nothing (p : Processor) (n func : node) :
  is_Attribute func = true →
  getattr_id (chain_root func) = None →
  get_full_attr_names E p func = [] ∧
  (retrieve_call_names E p n = [] → resolve_call E n func p = p).
Proof.
  intros Hattr Hroot.
  assert (get_full_attr_names E p func = []) as Hnames.
  { unfold get_full_attr_names.
    pose proof (attr_loop_root "" func) as Hr.
    destruct (attr_loop "" func) as [name root]. simpl in Hr. subst root.
    by rewrite Hroot. }
  split; [done |]. intros Hcall.
  unfold resolve_call, call_fallback. rewrite Hcall, Hattr, Hnames. simpl.
  destruct (has_ext_parent E p func); [done |]. by destruct func.
Qed.

(** ** Loops that add edges *)

Lemma adds_edges_foldl {A} (f : A → Processor → Processor)
    (I : Processor → Prop) (T : A → string → Prop) (l : list A) (p : Processor) :
  (∀ a q, I q → I (f a q) ∧ current_ns (f a q) = current_ns q ∧
                adds_edges q (f a q) (T a)) →
  I p →
  adds_edges p (foldl (λ q a, f a q) p l) (λ x, ∃ a, a ∈ l ∧ T a x).
Proof.
  intros Hf. revert p. induction l as [| a l IH]; intros p Hp; simpl.
  - eapply adds_edges_weaken; [| apply adds_edges_none].
    intros x. split; [done | intros (a & Hin & _); by apply elem_of_nil in Hin].
  - destruct (Hf a p Hp) as (HI & Hns & Hadd).
    eapply adds_edges_weaken;
      [| eapply adds_edges_trans; [exact Hns | exact Hadd | by apply IH] ].
    intros x. split.
    + intros [Ha | (b & Hin & Hb)]; [exists a | exists b]; split; auto;
        [apply list_elem_of_here | by apply list_elem_of_further].
    + intros (b & Hin & Hb). apply elem_of_cons in Hin as [-> | Hin]; eauto.
Qed.

Lemma current_ns_call_pointer (pointer : string) (p : Processor) :
  current_ns (call_pointer E pointer p) = current_ns p.
Proof.
  unfold call_pointer. destruct (def_manager E !! pointer) as [d |]; [| done].
  case_bool_decide; [rewrite current_ns_add_edges_to |];
    by destruct (is_callable d).
Qed.

Lemma adds_edges_call_pointer (pointer : string) (p : Processor) :
  adds_edges p (call_pointer E pointer p) (λ callee,
    ∃ pointer_def, def_manager E !! pointer = Some pointer_def ∧
      (is_callable pointer_def = true ∧ callee = pointer ∨
       get_type pointer_def = CLS_DEF ∧
       callee ∈ find_cls_fun_ns E pointer (CLS_INIT E))).
Proof.
  unfold call_pointer.
  destruct (def_manager E !! pointer) as [d |] eqn:Hd.
  - set (p1 := if is_callable d then add_edge (current_ns p) pointer p else p).
    assert (current_ns p1 = current_ns p) as Hns
      by (subst p1; by destruct (is_callable d)).
    assert (adds_edges p p1 (λ x, is_callable d = true ∧ x = pointer)) as H1.
    { subst p1. destruct (is_callable d).
      - eapply adds_edges_weaken; [| apply adds_edges_add_edge]. naive_solver.
      - eapply adds_edges_weaken; [| apply adds_edges_none]. naive_solver. }
    case_bool_decide as Hcls.
    + eapply adds_edges_weaken;
        [| eapply adds_edges_trans;
           [exact Hns | exact H1 | apply adds_edges_add_edges_to] ].
      intros x. split.
      * intros [? | ?]; exists d; auto.
      * intros (d' & ? & [? | [? ?]]); simplify_eq; auto.
    + eapply adds_edges_weaken; [| exact H1].
      intros x. split.
      * intros ?; exists d; auto.
      * intros (d' & ? & [? | [? ?]]); simplify_eq; auto.
  - eapply adds_edges_weaken; [| apply adds_edges_none].
    intros x. split; [done | by intros (? & ? & _)].
Qed.

(** C1: once the children of a call are visited and the callee resolves
    to a non-empty set of names, the edges added are exactly those from
    the current namespace (a) to every candidate whose Definition exists
    and is callable, and (b) to every constructor namespace
    [find_cls_fun_ns] resolves for a candidate whose Definition exists
    and is a class.  A candidate without a Definition contributes
    nothing, and one whose Definition is both callable and a class
    contributes both kinds of edge. *)
Theorem visit_Call_resolved_edges (p : Processor) (n func : node) :
  retrieve_call_names E p n ≠ [] →
  adds_edges p (resolve_call E n func p) (λ callee,
    ∃ pointer pointer_def,
      pointer ∈ retrieve_call_names E p n ∧
      def_manager E !! pointer = Some pointer_def ∧
      (is_callable pointer_def = true ∧ callee = pointer ∨
       get_type pointer_def = CLS_DEF ∧
       callee ∈ find_cls_fun_ns E pointer (CLS_INIT E))).
Proof.
  intros Hnames. unfold resolve_call.
  destruct (retrieve_call_names E p n) as [| name names] eqn:Heq; [done |].
  eapply adds_edges_weaken;
    [| apply (adds_edges_foldl (call_pointer E) (λ _, True)
               (λ pointer callee, ∃ pointer_def,
                  def_manager E !! pointer = Some pointer_def ∧
                  (is_callable pointer_def = true ∧ callee = pointer ∨
                   get_type pointer_def = CLS_DEF ∧
                   callee ∈ find_cls_fun_ns E pointer (CLS_INIT E)))
               (name :: names) (set_last_called_names (name :: names) p));
       [| done] ].
  - intros x. naive_solver.
  - intros a q _. split_and!;
      [done | apply current_ns_call_pointer | apply adds_edges_call_pointer].
Qed.

(** C2: once the children of a call are visited and the callee resolves
    to no name, the edges added go from the current namespace to, when
    the callee is an attribute chain with an external parent, every
    path made of a namespace in the closure of the chain's root
    identifier, a dot and the dotted attribute suffix; otherwise, when
    the callee is a bare identifier in the table of built-ins, the one
    namespace [BUILTIN_NAME.id]; otherwise to nothing.  The attribute
    names of the chain are identifiers, hence not empty. *)
Theorem visit_Call_unresolved_edges (p : Processor) (n func : node) :
  retrieve_call_names E p n = [] →
  Forall (λ a, a ≠ "") (chain_attrs func) →
  adds_edges p (resolve_call E n func p) (λ callee,
    if is_Attribute func && has_ext_parent E p func then
      ∃ id defi ids ns,
        chain_root func = Name id ∧
        get_def E (current_ns p) id = Some defi ∧
        closured p !! get_ns defi = Some ids ∧ ns ∈ ids ∧
        callee = ns ++ "." ++ dotted (chain_attrs func)
    else
      ∃ id, func = Name id ∧ id ≠ "" ∧ id ∈ builtins E ∧
            callee = join_ns (BUILTIN_NAME E) id).
Proof.
  intros Hnames Hattrs. unfold resolve_call, call_fallback. rewrite Hnames.
  destruct (is_Attribute func && has_ext_parent E p func).
  - eapply adds_edges_weaken; [| apply adds_edges_add_edges_to].
    intros x. by apply get_full_attr_names_spec.
  - destruct func as [id | | | | | |]; simpl;
      try (eapply adds_edges_weaken; [| apply adds_edges_none];
           intros x; split; [done | by intros (? & ? & _)]).
    unfold is_builtin. case_bool_decide as Hid; simpl.
    + eapply adds_edges_weaken; [| apply adds_edges_none].
      intros x. split; [done | intros (? & ? & ? & _); simplify_eq].
    + case_bool_decide as Hb.
      * eapply adds_edges_weaken; [| apply adds_edges_add_edge].
        intros x. split; [intros ->; by exists id |].
        intros (? & ? & ? & ? & ->). by simplify_eq.
      * eapply adds_edges_weaken; [| apply adds_edges_none].
        intros x. split; [done | intros (? & ? & ? & ? & _); simplify_eq].
Qed.

(** ** Induction on syntax trees *)

Lemma node_ind' (P : node → Prop) :
  (∀ id, P (Name id)) →
  (∀ value attr, P value → P (Attribute value attr)) →
  (∀ func args keywords,
     P func → Forall P args → Forall (λ kw, P kw.2) keywords →
     P (Call func args keywords)) →
  (∀ body, P body → P (Lambda body)) →
  (∀ name decorator_list body,
     Forall P decorator_list → Forall P body →
     P (FunctionDef name decorator_list body)) →
  (∀ name body, Forall P body → P (ClassDef name body)) →
  (∀ children, Forall P children → P (Generic children)) →
  ∀ n, P n.
Proof.
  intros HName HAttr HCall HLam HFun HCls HGen.
  fix IH 1.
  intros [id | value attr | func args kws | body | name decs body
         | name body | children].
  - apply HName.
  - apply HAttr, IH.
  - apply HCall; [apply IH | |].
    + induction args as [| a args IHa]; constructor; [apply IH | exact IHa].
    + induction kws as [| [k v] kws IHk]; constructor; [apply IH | exact IHk].
  - apply HLam, IH.
  - apply HFun.
    + induction decs as [| a decs IHd]; constructor; [apply IH | exact IHd].
    + induction body as [| a body IHb]; constructor; [apply IH | exact IHb].
  - apply HCls.
    induction body as [| a body IHb]; constructor; [apply IH | exact IHb].
  - apply HGen.
    induction children as [| a l IHl]; constructor; [apply IH | exact IHl].
Qed.

(** ** The monad *)

Lemma bind_Ok {A B} (m : M A) (k : A → M B) (p p' : Processor) (b : B) :
  bind m k p = Ok (b, p') ↔ ∃ a q, m p = Ok (a, q) ∧ k a q = Ok (b, p').
Proof.
  unfold bind. destruct (m p) as [[a q] | e].
  - split; [by exists a, q | by intros (? & ? & [= <- <-] & ?)].
  - split; [done | by intros (? & ? & ? & _)].
Qed.

Lemma for_each_nil {A} (f : A → M unit) (p : Processor) :
  for_each f [] p = Ok (tt, p).
Proof. done. Qed.

Lemma for_each_cons {A} (f : A → M unit) (x : A) (l : list A) :
  for_each f (x :: l) = (f x ;;; for_each f l).
Proof. done. Qed.

Lemma for_each_app {A} (f : A → M unit) (l1 l2 : list A) (p p' : Processor) :
  for_each f (l1 ++ l2)%list p = Ok (tt, p') ↔
  ∃ q, for_each f l1 p = Ok (tt, q) ∧ for_each f l2 q = Ok (tt, p').
Proof.
  revert p. induction l1 as [| x l1 IH]; intros p.
  - simpl. split; [by exists p | by intros (q & [= <-] & ?)].
  - rewrite <- app_comm_cons, !for_each_cons, bind_Ok. split.
    + intros (u & q & Hx & Hrest). apply IH in Hrest as (q' & H1 & H2).
      exists q'. split; [| done]. apply bind_Ok. by exists u, q.
    + intros (q' & H1 & H2). apply bind_Ok in H1 as (u & q & Hx & H1).
      exists u, q. split; [done |]. apply IH. by exists q'.
Qed.

(** A loop whose every step continues the state continues it. *)
Lemma for_each_extends {A} (f : A → M unit) (l : list A) :
  Forall (λ x, ∀ p p', f x p = Ok (tt, p') → extends p p') l →
  ∀ p p', for_each f l p = Ok (tt, p') → extends p p'.
Proof.
  induction 1 as [| x l Hx _ IH]; intros p p' Hrun.
  - injection Hrun as <-. apply extends_refl.
  - rewrite for_each_cons in Hrun.
    apply bind_Ok in Hrun as ([] & q & Hfx & Hrest).
    eapply extends_trans; [by apply Hx | by apply IH].
Qed.

Lemma in_namespace_extends (name : string) (m : M unit) :
  (∀ p p', m p = Ok (tt, p') → extends p p') →
  ∀ p p', in_namespace name m p = Ok (tt, p') → extends p p'.
Proof.
  intros Hm p p' Hrun. unfold in_namespace in Hrun.
  destruct (m _) as [[[] q] | e] eqn:Hq; [| done].
  injection Hrun as <-.
  destruct (Hm _ _ Hq) as (?&?&?&?&?&?&?). by split_and!.
Qed.

(** ** The steps of the visitor continue the state *)

Lemma extends_foldl {A} (f : A → Processor → Processor) (l : list A)
    (p : Processor) :
  (∀ a q, extends q (f a q)) → extends p (foldl (λ q a, f a q) p l).
Proof.
  intros Hf. revert p. induction l as [| a l IH]; intros p; simpl.
  - apply extends_refl.
  - eapply extends_trans; [apply Hf | apply IH].
Qed.

Lemma extends_decoded_edges (d : Decoded) (p : Processor) :
  extends p (decoded_edges d p).
Proof. destruct d; [apply extends_add_edges_to | apply extends_refl]. Qed.

Lemma extends_decorator_edges (decorator : node) (p : Processor) :
  extends p (decorator_edges E decorator p).
Proof. apply extends_foldl, extends_decoded_edges. Qed.

Lemma extends_call_fallback (func : node) (p : Processor) :
  extends p (call_fallback E func p).
Proof.
  unfold call_fallback. destruct (_ && _); [apply extends_add_edges_to |].
  destruct (getattr_id func); [| apply extends_refl].
  destruct (_ && _); [apply extends_add_edge | apply extends_refl].
Qed.

Lemma extends_call_pointer (pointer : string) (p : Processor) :
  extends p (call_pointer E pointer p).
Proof.
  unfold call_pointer.
  destruct (def_manager E !! pointer) as [d |]; [| apply extends_refl].
  assert (extends p (if is_callable d
                     then add_edge (current_ns p) pointer p else p)) as H1
    by (destruct (is_callable d); [apply extends_add_edge | apply extends_refl]).
  case_bool_decide; [| done].
  eapply extends_trans; [exact H1 | apply extends_add_edges_to].
Qed.

Lemma extends_resolve_call (n func : node) (p : Processor) :
  extends p (resolve_call E n func p).
Proof.
  unfold resolve_call.
  destruct (retrieve_call_names E p n) as [| name names];
    [apply extends_call_fallback |].
  eapply extends_trans; [apply extends_set_last_called_names |].
  apply extends_foldl, extends_call_pointer.
Qed.

Lemma extends_inc_lambda_counter (p p' : Processor) (counter : nat) :
  inc_lambda_counter E p = Ok (counter, p') → extends p p'.
Proof.
  unfold inc_lambda_counter. destruct (scopes E !! current_ns p); [| done].
  intros [= <- <-]. by split_and!.
Qed.

(** Whatever the visitor does to a tree, it leaves the instance fields
    and the current namespace as they were and only adds to the graph. *)
Lemma visit_extends (n : node) :
  ∀ p p', visit E n p = Ok (tt, p') → extends p p'.
Proof.
  induction n as [id | value attr IH | func args kws IHf IHa IHk | body IH
                 | name decs body IHd IHb | name body IHb | children IHc]
    using node_ind'; intros p p' Hrun; simpl in Hrun.
  - injection Hrun as <-. apply extends_refl.
  - by apply IH.
  - apply bind_Ok in Hrun as ([] & q1 & Hargs & Hrun).
    apply bind_Ok in Hrun as ([] & q2 & Hkws & Hrun).
    apply bind_Ok in Hrun as ([] & q3 & Hfunc & Hrun).
    injection Hrun as <-.
    eapply extends_trans; [by eapply for_each_extends |].
    eapply extends_trans.
    { eapply for_each_extends; [| exact Hkws].
      eapply Forall_impl; [exact IHk |]. by intros [k v]. }
    eapply extends_trans; [by apply IHf | apply extends_resolve_call].
  - apply bind_Ok in Hrun as (counter & q1 & Hinc & Hrun).
    apply bind_Ok in Hrun as ([] & q2 & Hnode & Hrun).
    injection Hnode as <-.
    eapply extends_trans; [by eapply extends_inc_lambda_counter |].
    eapply extends_trans; [apply extends_add_node |].
    by eapply in_namespace_extends.
  - apply bind_Ok in Hrun as ([] & q1 & Hdecs & Hrun).
    apply bind_Ok in Hrun as ([] & q2 & Hnode & Hrun).
    injection Hnode as <-.
    eapply extends_trans.
    { eapply for_each_extends; [| exact Hdecs].
      eapply Forall_impl; [exact IHd |]. intros d Hd r r' Hstep.
      apply bind_Ok in Hstep as ([] & r1 & Hv & Hstep).
      injection Hstep as <-.
      eapply extends_trans; [by apply Hd | apply extends_decorator_edges]. }
    eapply extends_trans; [apply extends_add_node |].
    eapply in_namespace_extends; [| exact Hrun].
    by apply for_each_extends.
  - eapply in_namespace_extends; [| exact Hrun]. by apply for_each_extends.
  - by eapply for_each_extends.
Qed.

(** ** Decorators *)

Lemma adds_edges_decorator_edges (decorator : node) (p : Processor) :
  adds_edges p (decorator_edges E decorator p) (λ callee,
    ∃ d ids, IsDef d ∈ decode_node E p decorator ∧
             closured p !! get_ns d = Some ids ∧ callee ∈ ids).
Proof.
  unfold decorator_edges.
  eapply adds_edges_weaken;
    [| apply (adds_edges_foldl decoded_edges
               (λ q, closured q = closured p)
               (λ d callee, match d with
                            | IsDef d => ∃ ids, closured p !! get_ns d = Some ids
                                                ∧ callee ∈ ids
                            | NotDef _ => False
                            end)); [| done] ].
  - intros x. split.
    + intros ([d | r] & Hin & Hd); [| done].
      destruct Hd as (ids & ? & ?). by exists d, ids.
    + intros (d & ids & ? & ? & ?). exists (IsDef d). eauto.
  - intros d q Hq.
    destruct (extends_decoded_edges d q) as (_ & Hc & Hns & _).
    split_and!; [congruence | done |].
    destruct d as [d | r]; simpl.
    + eapply adds_edges_weaken; [| apply adds_edges_add_edges_to].
      intros x. rewrite Hq.
      destruct (closured p !! get_ns d) as [ids |]; simpl.
      * split; [by exists ids | by intros (? & [= <-] & ?)].
      * rewrite elem_of_nil. split; [done | by intros (? & ? & _)].
    + apply adds_edges_none.
Qed.

Lemma visit_decorator_extends (decorator : node) (p p' : Processor) :
  (visit E decorator ;;; modify (decorator_edges E decorator)) p = Ok (tt, p') →
  extends p p'.
Proof.
  intros Hstep. apply bind_Ok in Hstep as ([] & q & Hv & Hstep).
  injection Hstep as <-.
  eapply extends_trans;
    [by apply (visit_extends decorator) | apply extends_decorator_edges].
Qed.

(** C3, as the pass has it: when a function definition is visited, each
    decorator expression is visited and then, in the state this leaves,
    exactly the edges from the current namespace to the namespaces in
    the closure of every Definition among its decoded values are added;
    values that are no Definition add nothing.  That current namespace
    is the one the definition statement was met in, which differs from
    the namespace of the decorated function, and these edges are in the
    graph when the visit of the function ends.  An edge into the
    decorated function is added by the handling of a decorator only from
    the enclosing namespace, and only when the namespace of the
    decorated function is in the closure of a decoded Definition; it
    leaves a decorator exactly when that enclosing namespace is itself
    the namespace of a decorator. *)
Theorem visit_FunctionDef_decorator_edges (p p' : Processor) (name : string)
    (decorator_list body : list node) :
  visit E (FunctionDef name decorator_list body) p = Ok (tt, p') →
  current_ns p ≠ join_ns (current_ns p) name ∧
  ∀ (pre : list node) (decorator : node) (post : list node),
    decorator_list = (pre ++ decorator :: post)%list →
    ∃ q0 q1,
      for_each (λ decorator, visit E decorator ;;; modify (decorator_edges E decorator))
        pre p = Ok (tt, q0) ∧
      visit E decorator q0 = Ok (tt, q1) ∧
      current_ns q1 = current_ns p ∧
      adds_edges q1 (decorator_edges E decorator q1) (λ callee,
        ∃ d ids, IsDef d ∈ decode_node E q1 decorator ∧
                 closured p !! get_ns d = Some ids ∧ callee ∈ ids) ∧
      edges (graph (decorator_edges E decorator q1)) ⊆ edges (graph p') ∧
      ∀ dn,
        (dn, join_ns (current_ns p) name)
          ∈ edges (graph (decorator_edges E decorator q1)) →
        (dn, join_ns (current_ns p) name) ∉ edges (graph q1) →
        dn = current_ns p ∧
        ∃ d ids, IsDef d ∈ decode_node E q1 decorator ∧
                 closured p !! get_ns d = Some ids ∧
                 join_ns (current_ns p) name ∈ ids.
Proof.
  intros Hrun. split; [apply join_ns_neq |].
  intros pre decorator post ->. simpl in Hrun.
  apply bind_Ok in Hrun as ([] & r1 & Hdecs & Hrun).
  apply bind_Ok in Hrun as ([] & r2 & Hnode & Hbody).
  injection Hnode as <-.
  apply for_each_app in Hdecs as (q0 & Hpre & Hdecs).
  rewrite for_each_cons in Hdecs.
  apply bind_Ok in Hdecs as ([] & r0 & Hstep & Hpost).
  apply bind_Ok in Hstep as ([] & q1 & Hvisit & Hstep).
  injection Hstep as <-.
  assert (extends p q0) as H0.
  { eapply for_each_extends; [| exact Hpre].
    apply Forall_forall. intros d _ r r'. apply visit_decorator_extends. }
  assert (extends q0 q1) as H1 by by apply (visit_extends decorator).
  destruct (extends_trans _ _ _ H0 H1) as (_ & Hc & Hns & _).
  assert (adds_edges q1 (decorator_edges E decorator q1) (λ callee,
            ∃ d ids, IsDef d ∈ decode_node E q1 decorator ∧
                     closured p !! get_ns d = Some ids ∧ callee ∈ ids)) as Hadd
    by (rewrite <- Hc; apply adds_edges_decorator_edges).
  exists q0, q1. split_and!; [done | done | done | done | |].
  - assert (extends (decorator_edges E decorator q1) p') as Hext.
    { eapply extends_trans.
      { eapply for_each_extends; [| exact Hpost].
        apply Forall_forall. intros d _ r r'. apply visit_decorator_extends. }
      eapply extends_trans; [apply extends_add_node |].
      eapply in_namespace_extends; [| exact Hbody].
      apply for_each_extends, Forall_forall. intros d _. apply visit_extends. }
    apply Hext.
  - intros dn Hin Hnew. apply Hadd in Hin as [Hin | [-> Hclo]]; [done |].
    by rewrite Hns.
Qed.

(** ** The order of a call's visit *)

(** C5: the visit of a call visits every positional argument, then the
    value of every keyword argument, then the callee, and only then
    resolves the call, in the state these visits leave.  So in a chain
    [f()()()] the edges of the innermost call, recorded first, are in
    the final graph whatever the outer calls resolve to. *)
Theorem visit_Call_children_first :
  (∀ func args keywords p p',
     visit E (Call func args keywords) p = Ok (tt, p') ↔
     ∃ q1 q2 q3,
       for_each (visit E) args p = Ok (tt, q1) ∧
       for_each (λ keyword, let '(_, value) := keyword in visit E value)
         keywords q1 = Ok (tt, q2) ∧
       visit E func q2 = Ok (tt, q3) ∧
       p' = resolve_call E (Call func args keywords) func q3) ∧
  (∀ f p p',
     visit E (Call (Call (Call f [] []) [] []) [] []) p = Ok (tt, p') →
     ∃ q, visit E (Call f [] []) p = Ok (tt, q) ∧
          edges (graph q) ⊆ edges (graph p')).
Proof.
  assert (∀ func args keywords p p',
     visit E (Call func args keywords) p = Ok (tt, p') ↔
     ∃ q1 q2 q3,
       for_each (visit E) args p = Ok (tt, q1) ∧
       for_each (λ keyword, let '(_, value) := keyword in visit E value)
         keywords q1 = Ok (tt, q2) ∧
       visit E func q2 = Ok (tt, q3) ∧
       p' = resolve_call E (Call func args keywords) func q3) as Horder.
  { intros func args keywords p p'. simpl. split.
    - intros Hrun.
      apply bind_Ok in Hrun as ([] & q1 & Hargs & Hrun).
      apply bind_Ok in Hrun as ([] & q2 & Hkws & Hrun).
      apply bind_Ok in Hrun as ([] & q3 & Hfunc & Hrun).
      injection Hrun as <-. by exists q1, q2, q3.
    - intros (q1 & q2 & q3 & Hargs & Hkws & Hfunc & ->).
      apply bind_Ok. exists tt, q1. split; [done |].
      apply bind_Ok. exists tt, q2. split; [done |].
      apply bind_Ok. exists tt, q3. by split. }
  split; [exact Horder |].
  intros f p p' Hrun.
  apply Horder in Hrun as (q1 & q2 & q3 & [= <-] & [= <-] & Houter & ->).
  pose proof Houter as Hmid.
  apply Horder in Hmid as (r1 & r2 & r3 & [= <-] & [= <-] & Hinner & ->).
  exists r3. split; [done |].
  etransitivity; [apply extends_resolve_call |].
  apply extends_resolve_call.
Qed.

(** ** Runs over the modules of a program *)

Lemma analyze_submodules_rel (R : Stores → Stores → Prop)
    (run : string → Stores → option (result Stores)) :
  (∀ s, R s s) →
  (∀ s1 s2 s3, R s1 s2 → R s2 s3 → R s1 s3) →
  (∀ m s s', run m s = Some (Ok s') → R s s') →
  ∀ imps s s', analyze_submodules E run imps s = Some (Ok s') → R s s'.
Proof.
  intros Hrefl Htrans Hrun.
  induction imps as [| imp imps IH]; intros s s' Hsub; simpl in Hsub.
  - injection Hsub as <-. apply Hrefl.
  - case_bool_decide; [by apply IH |].
    case_bool_decide; [by apply IH |].
    destruct (run imp s) as [[s1 | e] |] eqn:Himp; [| done | done].
    eapply Htrans; [by eapply Hrun | by apply IH].
Qed.

Lemma analyze_unfold (fuel : nat) (m : string) (s s' : Stores) :
  analyze E fuel m s = Some (Ok s') →
  ∃ fuel' tree p',
    fuel = S fuel' ∧ trees E !! m = Some tree ∧
    visit E tree (set_stores (log_event (EvVisit m)
      (stores (new_processor E m s))) (new_processor E m s)) = Ok (tt, p') ∧
    analyze_submodules E (analyze E fuel') (imports E m) (stores p') = Some (Ok s').
Proof.
  destruct fuel as [| fuel']; [done |]. simpl.
  destruct (trees E !! m) as [tree |]; [| done].
  destruct (visit E tree _) as [[[] p'] | e] eqn:Hvisit; [| done].
  intros Hsub. by exists fuel', tree, p'.
Qed.

Lemma closure_computations_app (l1 l2 : list event) :
  closure_computations (l1 ++ l2)%list =
  closure_computations l1 + closure_computations l2.
Proof. unfold closure_computations. by rewrite filter_app, length_app. Qed.

Lemma closure_computations_module_events (ms : list string) :
  closure_computations (module_events ms) = length ms.
Proof.
  induction ms as [| m ms IH]; [done |].
  unfold module_events in *. rewrite bind_cons, closure_computations_app, IH.
  done.
Qed.

Lemma analyze_events (fuel : nat) (m : string) (s s' : Stores) :
  analyze E fuel m s = Some (Ok s') →
  ∃ ms, events s' = (events s ++ module_events (m :: ms))%list ∧
        modules_analyzed s' = list_to_set (m :: ms) ∪ modules_analyzed s.
Proof.
  revert m s s'.
  induction fuel as [| fuel IH]; intros m s s' Hrun; [done |].
  apply analyze_unfold in Hrun as (fuel' & tree & p' & [= <-] & _ & Hvisit & Hsub).
  apply visit_extends in Hvisit as (_ & _ & _ & Han & Hev & _).
  simpl in Han, Hev.
  apply (analyze_submodules_rel
           (λ s1 s2, ∃ ms, events s2 = (events s1 ++ module_events ms)%list ∧
                           modules_analyzed s2 = list_to_set ms ∪ modules_analyzed s1))
    in Hsub as (ms & Hev' & Han').
  - exists ms. rewrite Hev', Han', Hev, Han. split.
    + unfold module_events. rewrite bind_cons, <- !app_assoc. done.
    + set_solver.
  - intros s1. exists []. split; [by rewrite app_nil_r | set_solver].
  - intros s1 s2 s3 (ms1 & He1 & Ha1) (ms2 & He2 & Ha2).
    exists (ms1 ++ ms2)%list. rewrite He2, He1, Ha2, Ha1. split.
    + unfold module_events. by rewrite bind_app, app_assoc.
    + set_solver.
  - intros m' s1 s2 Hrun'. apply IH in Hrun' as (ms & ? & ?). by exists (m' :: ms).
Qed.

(** The visited-set guard bounds the recursion: a run needs no more
    nesting than there are modules with a file not yet analysed. *)
Lemma analyze_submodules_is_Some (run : string → Stores → option (result Stores))
    (I : Stores → Prop) :
  (∀ imp s, I s → imp ∉ modules_analyzed s → is_Some (run imp s)) →
  (∀ imp s s', I s → run imp s = Some (Ok s') → I s') →
  ∀ imps s, I s → is_Some (analyze_submodules E run imps s).
Proof.
  intros Hsome Hinv. induction imps as [| imp imps IH]; intros s Hs; simpl.
  - done.
  - case_bool_decide as Hin; [by apply IH |].
    case_bool_decide; [by apply IH |].
    destruct (Hsome imp s Hs Hin) as [[s' | e] Hrun]; rewrite Hrun; [| done].
    apply IH. by eapply Hinv.
Qed.

Lemma analyze_enough_fuel (fuel : nat) (m : string) (s : Stores) :
  (size (dom (trees E) ∖ modules_analyzed s) ≤ fuel)%nat →
  m ∉ modules_analyzed s →
  is_Some (analyze E (S fuel) m s).
Proof.
  revert m s. induction fuel as [| fuel IH]; intros m s Hsize Hm; simpl.
  - destruct (trees E !! m) as [tree |] eqn:Htree; [| done].
    assert (m ∈ dom (trees E) ∖ modules_analyzed s) as Hin
      by (apply elem_of_difference; split; [by apply elem_of_dom | done]).
    apply Nat.le_0_r, size_empty_iff in Hsize. by apply Hsize in Hin.
  - destruct (trees E !! m) as [tree |] eqn:Htree; [| done].
    destruct (visit E tree _) as [[[] p'] | e] eqn:Hvisit; [| done].
    apply visit_extends in Hvisit as (_ & _ & _ & Han & _). simpl in Han.
    assert (size (dom (trees E) ∖ ({[m]} ∪ modules_analyzed s)) ≤ fuel)%nat
      as Hless.
    { apply Nat.lt_succ_r. eapply Nat.lt_le_trans; [| exact Hsize].
      apply subset_size. split; [set_solver |].
      intros Hsub. assert (m ∈ dom (trees E) ∖ modules_analyzed s) as Hin
        by (apply elem_of_difference; split; [by apply elem_of_dom | done]).
      apply Hsub in Hin. set_solver. }
    apply (analyze_submodules_is_Some (analyze E (S fuel))
             (λ s1, {[m]} ∪ modules_analyzed s ⊆ modules_analyzed s1)).
    + intros imp s1 Hs1 Himp. apply IH; [| done].
      etransitivity; [| exact Hless]. apply subseteq_size. set_solver.
    + intros imp s1 s2 Hs1 Hrun.
      apply analyze_events in Hrun as (ms & _ & ->). set_solver.
    + by rewrite Han.
Qed.

(** C9 as the code has it: every processor computes the closure in its
    constructor, so a completed run logs, for the module analysed and
    every submodule it goes on to analyse, one closure computation
    followed by the visit of that module's tree, that is one
    computation per module analysed.  The mapping of a processor is the
    one the definition store returns, and no visit changes it. *)
Theorem closure_computed_per_module :
  (∀ fuel m s s',
     analyze E fuel m s = Some (Ok s') →
     ∃ ms,
       events s' = (events s ++ module_events (m :: ms))%list ∧
       modules_analyzed s' = list_to_set (m :: ms) ∪ modules_analyzed s ∧
       closure_computations (events s') =
         closure_computations (events s) + S (length ms)) ∧
  (∀ m s, closured (new_processor E m s) = transitive_closure E) ∧
  (∀ n p p', visit E n p = Ok (tt, p') → closured p' = closured p).
Proof.
  split_and!.
  - intros fuel m s s' Hrun.
    apply analyze_events in Hrun as (ms & Hev & Han).
    exists ms. split_and!; [done | done |].
    by rewrite Hev, closure_computations_app,
      (closure_computations_module_events (m :: ms)).
  - done.
  - intros n p p' Hvisit. by apply visit_extends in Hvisit as (_ & ? & _).
Qed.

(** ** The reachable-function query *)

Lemma reachable_items_spec (p : Processor) (items : list (string * Definition_)) :
  NoDup items.*1 →
  ∀ reachable names,
    (∀ name defi, (name, defi) ∈ items → is_function_def defi = true →
       name ∉ names → is_Some (closured p !! get_ns defi)) →
    ∃ reachable' names',
      reachable_items p (reachable, names) items = Ok (reachable', names') ∧
      (∀ x, x ∈ reachable' ↔
         x ∈ reachable ∨
         ∃ name defi ids, (name, defi) ∈ items ∧ is_function_def defi = true ∧
           (name ∉ names) ∧ closured p !! get_ns defi = Some ids ∧ x ∈ ids) ∧
      (∀ nm, nm ∈ names' ↔
         nm ∈ names ∨ ∃ defi, (nm, defi) ∈ items ∧ is_function_def defi = true).
Proof.
  induction items as [| [name defi] items IH]; intros Hnodup reachable names Hclo.
  - exists reachable, names. split_and!; [done | |].
    + intros x. split; [auto |].
      intros [? | (? & ? & ? & Hin & _)]; [done | by apply elem_of_nil in Hin].
    + intros nm. split; [auto |].
      intros [? | (? & Hin & _)]; [done | by apply elem_of_nil in Hin].
  - rewrite fmap_cons in Hnodup. apply NoDup_cons in Hnodup as [Hfresh Hnodup].
    simpl in Hfresh.
    assert (∀ name' defi', (name', defi') ∈ items → name' ≠ name) as Hne.
    { intros name' defi' Hin ->. apply Hfresh.
      apply list_elem_of_fmap. by exists (name, defi'). }
    simpl.
    destruct (is_function_def defi && negb (bool_decide (name ∈ names))) eqn:Hcount.
    + apply andb_true_iff in Hcount as [Hfun Hnew].
      apply negb_true_iff, bool_decide_eq_false in Hnew.
      destruct (Hclo name defi) as [ids Hids]; [apply list_elem_of_here | done..|].
      rewrite Hids.
      destruct (IH Hnodup (list_to_set ids ∪ reachable) ({[name]} ∪ names))
        as (reachable' & names' & Hrun & Hreach & Hnames).
      { intros name' defi' Hin Hfun' Hnot. apply (Hclo name' defi');
          [by apply list_elem_of_further | done | set_solver]. }
      exists reachable', names'. split_and!; [done | |].
      * intros x. rewrite Hreach, elem_of_union, elem_of_list_to_set. split.
        -- intros [[Hx | Hx] | (name' & defi' & ids' & Hin & ? & Hnot & ? & ?)].
           ++ right. exists name, defi, ids.
              split_and!; [apply list_elem_of_here | done..].
           ++ by left.
           ++ right. exists name', defi', ids'.
              split_and!; [by apply list_elem_of_further | done | set_solver | done..].
        -- intros [Hx | (name' & defi' & ids' & Hin & ? & Hnot & ? & ?)]; [auto |].
           apply elem_of_cons in Hin as [[= -> ->] | Hin].
           ++ left. left. congruence.
           ++ right. exists name', defi', ids'.
              split_and!; [done | done | | done | done].
              specialize (Hne _ _ Hin). set_solver.
      * intros nm. rewrite Hnames, elem_of_union, elem_of_singleton. split.
        -- intros [[-> | ?] | (defi' & Hin & ?)]; [right | by left | right].
           ++ exists defi. split; [apply list_elem_of_here | done].
           ++ exists defi'. split; [by apply list_elem_of_further | done].
        -- intros [? | (defi' & Hin & ?)]; [auto |].
           apply elem_of_cons in Hin as [[= -> ->] | Hin]; [auto |].
           right. by exists defi'.
    + destruct (IH Hnodup reachable names)
        as (reachable' & names' & Hrun & Hreach & Hnames).
      { intros name' defi' Hin. apply Hclo. by apply list_elem_of_further. }
      exists reachable', names'. split_and!; [done | |].
      * intros x. rewrite Hreach. split.
        -- intros [Hx | (name' & defi' & ids' & Hin & Hrest)]; [auto |].
           right. exists name', defi', ids'.
           split; [by apply list_elem_of_further | done].
        -- intros [Hx | (name' & defi' & ids' & Hin & Hfun & Hnot & Hrest)]; [auto |].
           apply elem_of_cons in Hin as [[= -> ->] | Hin].
           ++ rewrite Hfun in Hcount. simpl in Hcount.
              apply negb_false_iff, bool_decide_eq_true in Hcount. done.
           ++ right. by exists name', defi', ids'.
      * intros nm. rewrite Hnames. split.
        -- intros [? | (defi' & Hin & ?)]; [auto |].
           right. exists defi'. split; [by apply list_elem_of_further | done].
        -- intros [? | (defi' & Hin & Hfun)]; [auto |].
           apply elem_of_cons in Hin as [[= -> ->] | Hin].
           ++ rewrite Hfun in Hcount. simpl in Hcount.
              apply negb_false_iff, bool_decide_eq_true in Hcount. auto.
           ++ right. by exists defi'.
Qed.

Lemma counted_in_items (inner : list ScopeItem) (s : ScopeItem)
    (names : gset string) (name : string) (defi : Definition_) :
  (∀ nm, nm ∈ names ↔ ∃ s' defi', s' ∈ inner ∧
     get_defs s' !! nm = Some defi' ∧ is_function_def defi' = true) →
  counted_in inner s name defi ↔
  (name, defi) ∈ map_to_list (get_defs s) ∧ is_function_def defi = true ∧
  name ∉ names.
Proof.
  intros Hnames. unfold counted_in. rewrite elem_of_map_to_list, Hnames. split.
  - intros (Hdef & Hfun & Hinner). split_and!; [done | done |].
    intros (s' & defi' & Hin & Hdef' & Hfun').
    rewrite (Hinner s' defi' Hin Hdef') in Hfun'. done.
  - intros (Hdef & Hfun & Hnot). split_and!; [done | done |].
    intros s' defi' Hin Hdef'. apply not_true_is_false. intros Hfun'.
    apply Hnot. by exists s', defi'.
Qed.

Lemma reachable_scopes_spec (p : Processor) (chain : list ScopeItem) :
  ∀ (inner : list ScopeItem) reachable names,
    (∀ nm, nm ∈ names ↔ ∃ s' defi', s' ∈ inner ∧
       get_defs s' !! nm = Some defi' ∧ is_function_def defi' = true) →
    (∀ (pre : list ScopeItem) s post name defi,
       chain = (pre ++ s :: post)%list →
       counted_in (inner ++ pre)%list s name defi →
       is_Some (closured p !! get_ns defi)) →
    ∃ reachable' names',
      reachable_scopes p (reachable, names) chain = Ok (reachable', names') ∧
      ∀ x, x ∈ reachable' ↔
        x ∈ reachable ∨
        ∃ (pre : list ScopeItem) s post name defi ids,
          chain = (pre ++ s :: post)%list ∧
          counted_in (inner ++ pre)%list s name defi ∧
          closured p !! get_ns defi = Some ids ∧ x ∈ ids.
Proof.
  induction chain as [| s chain IH]; intros inner reachable names Hnames Hclo.
  - exists reachable, names. split; [done |].
    intros x. split; [auto |].
    intros [? | (pre & ? & ? & ? & ? & ? & Heq & _)]; [done |].
    by destruct pre.
  - simpl.
    destruct (reachable_items_spec p (map_to_list (get_defs s))
                (NoDup_fst_map_to_list _) reachable names)
      as (reachable1 & names1 & Hrun1 & Hreach1 & Hnames1).
    { intros name defi Hin Hfun Hnot.
      apply (Hclo [] s chain name defi); [done |].
      rewrite app_nil_r. by apply (counted_in_items inner s names). }
    rewrite Hrun1.
    destruct (IH (inner ++ [s])%list reachable1 names1)
      as (reachable' & names' & Hrun & Hreach).
    { intros nm. rewrite Hnames1, Hnames. split.
      - intros [(s' & defi' & Hin & ?) | (defi & Hin & ?)].
        + exists s', defi'. split; [| done]. apply elem_of_app. by left.
        + exists s, defi. apply elem_of_map_to_list in Hin.
          split; [| done]. apply elem_of_app. right. apply list_elem_of_here.
      - intros (s' & defi' & Hin & Hdef & Hfun).
        apply elem_of_app in Hin as [Hin | Hin].
        + left. by exists s', defi'.
        + apply list_elem_of_singleton in Hin as ->.
          right. exists defi'. by rewrite elem_of_map_to_list. }
    { intros pre s' post name defi -> Hcount.
      apply (Hclo (s :: pre) s' post name defi); [done |].
      by rewrite <- app_assoc in Hcount. }
    exists reachable', names'. split; [done |].
    intros x. rewrite Hreach, Hreach1. split.
    + intros [[Hx | (name & defi & ids & Hin & Hfun & Hnot & Hids & Hx)]
             | (pre & s' & post & name & defi & ids & -> & Hcount & Hids & Hx)].
      * by left.
      * right. exists [], s, chain, name, defi, ids.
        split_and!; [done | | done | done].
        rewrite app_nil_r. by apply (counted_in_items inner s names).
      * right. exists (s :: pre), s', post, name, defi, ids.
        split_and!; [done | | done | done].
        by rewrite <- app_assoc in Hcount.
    + intros [Hx | (pre & s' & post & name & defi & ids & Heq & Hcount & Hids & Hx)];
        [by left; left |].
      destruct pre as [| s0 pre]; simpl in Heq; injection Heq as <- ->.
      * left. right. rewrite app_nil_r in Hcount.
        apply (counted_in_items inner s names) in Hcount as (? & ? & ?); [| done].
        by exists name, defi, ids.
      * right. exists pre, s', post, name, defi, ids.
        split_and!; [done | | done | done].
        by rewrite <- app_assoc.
Qed.

(** Given a closure entry for every function definition the loops
    collect on the scopes of [scopes_from], the query returns the union
    of their closures and the processor as it was. *)
Lemma get_all_reachable_functions_spec (p : Processor) :
  (∀ name defi, collected (scopes_from E (current_ns p)) name defi →
     is_Some (closured p !! get_ns defi)) →
  ∃ reachable,
    get_all_reachable_functions E p = Ok (reachable, p) ∧
    ∀ x, x ∈ reachable ↔
      ∃ name defi ids,
        collected (scopes_from E (current_ns p)) name defi ∧
        closured p !! get_ns defi = Some ids ∧ x ∈ ids.
Proof.
  intros Hclo. unfold get_all_reachable_functions.
  destruct (reachable_scopes_spec p (scopes_from E (current_ns p)) [] ∅ ∅)
    as (reachable & names & Hrun & Hreach).
  - intros nm. split; [set_solver |].
    intros (s' & ? & Hin & _). by apply elem_of_nil in Hin.
  - intros pre s post name defi Heq Hcount. apply (Hclo name defi).
    by exists pre, s, post.
  - rewrite Hrun. exists reachable. split; [done |].
    intros x. rewrite Hreach. split.
    + intros [Hx | (pre & s & post & name & defi & ids & Heq & Hcount & ? & ?)];
        [set_solver |].
      exists name, defi, ids. split; [by exists pre, s, post | done].
    + intros (name & defi & ids & (pre & s & post & Heq & Hcount) & ? & ?).
      right. by exists pre, s, post, name, defi, ids.
Qed.

Lemma closure_covers_collected (p : Processor) (chain : list ScopeItem) :
  closure_covers p chain = true →
  ∀ name defi, collected chain name defi →
    is_Some (closured p !! get_ns defi).
Proof.
  intros Hcov name defi (inner & s & outer & -> & Hdef & Hfun & _).
  unfold closure_covers in Hcov. rewrite forallb_forall in Hcov.
  specialize (Hcov s). rewrite forallb_forall in Hcov.
  specialize (Hcov ltac:(apply list_elem_of_In, elem_of_app; right; left)
                   (name, defi)).
  rewrite <- list_elem_of_In, elem_of_map_to_list in Hcov.
  specialize (Hcov Hdef). simpl in Hcov. rewrite Hfun in Hcov.
  by apply bool_decide_eq_true in Hcov.
Qed.

End Properties.

(** * Further properties of the pass *)

Lemma append_nil_r_s (a : string) : a ++ "" = a.
Proof.
  induction a as [| c a IH]; [done |].
  change (String c (a ++ "") = String c a). by f_equal.
Qed.

Lemma append_assoc_s (a b c : string) : (a ++ b) ++ c = a ++ (b ++ c).
Proof.
  induction a as [| x a IH]; [done |].
  change (String x ((a ++ b) ++ c) = String x (a ++ (b ++ c))). by f_equal.
Qed.

Lemma append_cancel_r (a b c : string) : a ++ c = b ++ c → a = b.
Proof.
  revert b. induction a as [| x a IH]; intros [| y b] Heq.
  - done.
  - apply (f_equal String.length) in Heq.
    rewrite !length_append in Heq. simpl in Heq. lia.
  - apply (f_equal String.length) in Heq.
    rewrite !length_append in Heq. simpl in Heq. lia.
  - change (String x (a ++ c) = String y (b ++ c)) in Heq.
    injection Heq as -> Heq. f_equal. by apply IH.
Qed.

Lemma descends_refl (ns : string) : descends ns ns.
Proof. exists "". by rewrite append_nil_r_s. Qed.

Lemma descends_join_ns (ns name caller : string) :
  descends (join_ns ns name) caller → descends ns caller.
Proof.
  intros [suffix ->]. exists ("." ++ name ++ suffix).
  unfold join_ns. by rewrite !append_assoc_s.
Qed.

Lemma Forall_forallb_impl {A} (b : A → bool) (Q : A → Prop) (l : list A) :
  Forall (λ x, b x = true → Q x) l → forallb b l = true → Forall Q l.
Proof.
  induction 1 as [| x l Hx _ IH]; intros Hb; [constructor |].
  simpl in Hb. apply andb_true_iff in Hb as [Hbx Hbl].
  constructor; auto.
Qed.

Lemma for_each_rel {A} (R : Processor → Processor → Prop) (f : A → M unit)
    (l : list A) :
  (∀ p, R p p) →
  (∀ p1 p2 p3, R p1 p2 → R p2 p3 → R p1 p3) →
  Forall (λ x, ∀ p p', f x p = Ok (tt, p') → R p p') l →
  ∀ p p', for_each f l p = Ok (tt, p') → R p p'.
Proof.
  intros Hrefl Htrans. induction 1 as [| x l Hx _ IH]; intros p p' Hrun.
  - injection Hrun as <-. apply Hrefl.
  - rewrite for_each_cons in Hrun.
    apply bind_Ok in Hrun as ([] & q & Hfx & Hrest).
    eapply Htrans; [by apply Hx | by apply IH].
Qed.

Section Further.
Context (E : Env).

(** ** Where edges come from *)

(** X2: edges are added only at calls and decorators; the visit of a
    tree that holds neither leaves the edge set as it was, however many
    functions, classes and lambdas it defines. *)
Theorem visit_call_free_edges (n : node) :
  call_free n = true →
  ∀ p p', visit E n p = Ok (tt, p') → edges (graph p') = edges (graph p).
Proof.
  set (R := λ p p' : Processor, edges (graph p') = edges (graph p)).
  assert (∀ p, R p p) as Hrefl by done.
  assert (∀ p1 p2 p3, R p1 p2 → R p2 p3 → R p1 p3) as Htrans
    by (unfold R; congruence).
  induction n as [id | value attr IH | func args kws IHf IHa IHk | body IH
                 | name decs body IHd IHb | name body IHb | children IHc]
    using node_ind'; simpl; intros Hfree p p' Hrun.
  - by injection Hrun as <-.
  - by apply IH.
  - done.
  - apply bind_Ok in Hrun as (counter & q1 & Hinc & Hrun).
    apply bind_Ok in Hrun as ([] & q2 & Hnode & Hrun).
    injection Hnode as <-.
    unfold inc_lambda_counter in Hinc.
    destruct (scopes E !! current_ns p); [| done]. injection Hinc as <- <-.
    unfold in_namespace in Hrun.
    destruct (visit E body _) as [[[] q] | e] eqn:Hbody; [| done].
    injection Hrun as <-. by apply (IH Hfree) in Hbody.
  - destruct decs as [| d decs]; [| done].
    apply bind_Ok in Hrun as ([] & q1 & [= <-] & Hrun).
    apply bind_Ok in Hrun as ([] & q2 & [= <-] & Hrun).
    unfold in_namespace in Hrun.
    destruct (for_each _ _ _) as [[[] q] | e] eqn:Hbody; [| done].
    injection Hrun as <-.
    by apply (for_each_rel R (visit E) body Hrefl Htrans
                (Forall_forallb_impl _ _ _ IHb Hfree)) in Hbody.
  - unfold in_namespace in Hrun.
    destruct (for_each _ _ _) as [[[] q] | e] eqn:Hbody; [| done].
    injection Hrun as <-.
    by apply (for_each_rel R (visit E) body Hrefl Htrans
                (Forall_forallb_impl _ _ _ IHb Hfree)) in Hbody.
  - by apply (for_each_rel R (visit E) children Hrefl Htrans
                (Forall_forallb_impl _ _ _ IHc Hfree)) in Hrun.
Qed.

Lemma callers_descend_refl (p : Processor) : callers_descend p p.
Proof. split; auto. Qed.

Lemma callers_descend_trans (p1 p2 p3 : Processor) :
  callers_descend p1 p2 → callers_descend p2 p3 → callers_descend p1 p3.
Proof.
  intros [Hns1 H1] [Hns2 H2]. split; [congruence |].
  intros a b Hin. destruct (H2 a b Hin) as [Hin2 | Hd].
  - by apply H1.
  - right. by rewrite <- Hns1.
Qed.

Lemma callers_descend_adds_edges (p p' : Processor) (T : string → Prop) :
  current_ns p' = current_ns p → adds_edges p p' T → callers_descend p p'.
Proof.
  intros Hns Hadd. split; [done |]. intros a b Hin.
  apply Hadd in Hin as [Hin | [-> _]]; [by left |].
  right. apply descends_refl.
Qed.

Lemma callers_descend_foldl {A} (f : A → Processor → Processor) (l : list A)
    (p : Processor) :
  (∀ a q, callers_descend q (f a q)) →
  callers_descend p (foldl (λ q a, f a q) p l).
Proof.
  intros Hf. revert p. induction l as [| a l IH]; intros p; simpl.
  - apply callers_descend_refl.
  - eapply callers_descend_trans; [apply Hf | apply IH].
Qed.

Lemma callers_descend_add_edges_to (names : list string) (p : Processor) :
  callers_descend p (add_edges_to names p).
Proof.
  eapply callers_descend_adds_edges;
    [apply current_ns_add_edges_to | apply adds_edges_add_edges_to].
Qed.

Lemma callers_descend_resolve_call (n func : node) (p : Processor) :
  callers_descend p (resolve_call E n func p).
Proof.
  unfold resolve_call. destruct (retrieve_call_names E p n) as [| name names].
  - unfold call_fallback. destruct (_ && _);
      [apply callers_descend_add_edges_to |].
    destruct (getattr_id func); [| apply callers_descend_refl].
    destruct (_ && _); [| apply callers_descend_refl].
    eapply callers_descend_adds_edges; [done | apply adds_edges_add_edge].
  - eapply callers_descend_trans;
      [| apply (callers_descend_foldl (call_pointer E))].
    + split; auto.
    + intros pointer q. eapply callers_descend_adds_edges;
        [apply current_ns_call_pointer | apply adds_edges_call_pointer].
Qed.

Lemma callers_descend_decorator_edges (decorator : node) (p : Processor) :
  callers_descend p (decorator_edges E decorator p).
Proof.
  eapply callers_descend_adds_edges; [| apply adds_edges_decorator_edges].
  apply extends_decorator_edges.
Qed.

Lemma callers_descend_in_namespace (name : string) (m : M unit) :
  (∀ p p', m p = Ok (tt, p') → callers_descend p p') →
  ∀ p p', in_namespace name m p = Ok (tt, p') → callers_descend p p'.
Proof.
  intros Hm p p' Hrun. unfold in_namespace in Hrun.
  destruct (m _) as [[[] q] | e] eqn:Hq; [| done].
  injection Hrun as <-. destruct (Hm _ _ Hq) as [_ Hnew].
  split; [done |]. intros a b Hin.
  destruct (Hnew a b Hin) as [? | Hd]; [by left |].
  right. by apply (descends_join_ns _ name).
Qed.

Lemma visit_callers_descend (n : node) :
  ∀ p p', visit E n p = Ok (tt, p') → callers_descend p p'.
Proof.
  induction n as [id | value attr IH | func args kws IHf IHa IHk | body IH
                 | name decs body IHd IHb | name body IHb | children IHc]
    using node_ind'; intros p p' Hrun; simpl in Hrun.
  - injection Hrun as <-. apply callers_descend_refl.
  - by apply IH.
  - apply bind_Ok in Hrun as ([] & q1 & Hargs & Hrun).
    apply bind_Ok in Hrun as ([] & q2 & Hkws & Hrun).
    apply bind_Ok in Hrun as ([] & q3 & Hfunc & Hrun).
    injection Hrun as <-.
    eapply callers_descend_trans.
    { by eapply (for_each_rel callers_descend (visit E) args
                   callers_descend_refl callers_descend_trans). }
    eapply callers_descend_trans.
    { eapply (for_each_rel callers_descend _ kws
                callers_descend_refl callers_descend_trans); [| exact Hkws].
      eapply Forall_impl; [exact IHk |]. by intros [k v]. }
    eapply callers_descend_trans;
      [by apply IHf | apply callers_descend_resolve_call].
  - apply bind_Ok in Hrun as (counter & q1 & Hinc & Hrun).
    apply bind_Ok in Hrun as ([] & q2 & Hnode & Hrun).
    injection Hnode as <-.
    unfold inc_lambda_counter in Hinc.
    destruct (scopes E !! current_ns p); [| done]. injection Hinc as <- <-.
    eapply callers_descend_trans;
      [| by eapply (callers_descend_in_namespace _ (visit E body))].
    split; auto.
  - apply bind_Ok in Hrun as ([] & q1 & Hdecs & Hrun).
    apply bind_Ok in Hrun as ([] & q2 & Hnode & Hrun).
    injection Hnode as <-.
    eapply callers_descend_trans.
    { eapply (for_each_rel callers_descend _ decs
                callers_descend_refl callers_descend_trans); [| exact Hdecs].
      eapply Forall_impl; [exact IHd |]. intros d Hd r r' Hstep.
      apply bind_Ok in Hstep as ([] & r1 & Hv & Hstep).
      injection Hstep as <-.
      eapply callers_descend_trans;
        [by apply Hd | apply callers_descend_decorator_edges]. }
    eapply callers_descend_trans;
      [| eapply (callers_descend_in_namespace _ (for_each (visit E) body));
         [| exact Hrun] ].
    + split; auto.
    + by apply (for_each_rel callers_descend (visit E) body
                  callers_descend_refl callers_descend_trans).
  - eapply (callers_descend_in_namespace _ (for_each (visit E) body));
      [| exact Hrun].
    by apply (for_each_rel callers_descend (visit E) body
                callers_descend_refl callers_descend_trans).
  - by eapply (for_each_rel callers_descend (visit E) children
                 callers_descend_refl callers_descend_trans).
Qed.

(** X3: every edge a visit adds has as its caller the namespace the
    tree was entered in or a namespace nested in it (a function,
    class or lambda of the tree): a visit never records an edge on
    behalf of an enclosing or unrelated namespace. *)
Theorem visit_new_edges_from_inside (n : node) (p p' : Processor)
    (caller callee : string) :
  visit E n p = Ok (tt, p') →
  (caller, callee) ∈ edges (graph p') →
  (caller, callee) ∉ edges (graph p) →
  ∃ suffix, caller = current_ns p ++ suffix.
Proof.
  intros Hrun Hin Hnew.
  destruct (visit_callers_descend n p p' Hrun) as [_ Hd].
  by destruct (Hd caller callee Hin).
Qed.

(** ** Node registration *)

Lemma for_each_declared (l : list node) :
  Forall (λ n, ∀ p p' x, visit E n p = Ok (tt, p') →
            In x (declared (current_ns p) n) → x ∈ nodes (graph p')) l →
  ∀ p p', for_each (visit E) l p = Ok (tt, p') →
    ∀ x, In x (flat_map (declared (current_ns p)) l) → x ∈ nodes (graph p').
Proof.
  induction 1 as [| n l Hn Hl IH]; intros p p' Hrun x Hx; [done |].
  rewrite for_each_cons in Hrun.
  apply bind_Ok in Hrun as ([] & q & Hvisit & Hrest).
  simpl in Hx. apply in_app_or in Hx as [Hx | Hx].
  - assert (extends q p') as Hext.
    { eapply for_each_extends; [| exact Hrest].
      apply Forall_forall. intros y _. apply visit_extends. }
    apply Hext. by eapply Hn.
  - apply (visit_extends E n) in Hvisit as (_ & _ & Hns & _).
    rewrite <- Hns in Hx. by eapply IH.
Qed.

(** X4: when the visit of a tree returns, every function definition met
    through its statements, class bodies and function bodies is a node
    of the graph, under the dotted path of the names of the definitions
    and classes that enclose it, whether or not anything calls it. *)
Theorem visit_registers_functions (n : node) (p p' : Processor) (x : string) :
  visit E n p = Ok (tt, p') →
  In x (declared (current_ns p) n) →
  x ∈ nodes (graph p').
Proof.
  revert p p' x.
  induction n as [id | value attr IH | func args kws IHf IHa IHk | body IH
                 | name decs body IHd IHb | name body IHb | children IHc]
    using node_ind'; intros p p' x Hrun Hx; simpl in Hx; try done.
  - simpl in Hrun.
    apply bind_Ok in Hrun as ([] & q1 & Hdecs & Hrun).
    apply bind_Ok in Hrun as ([] & q2 & Hnode & Hrun).
    injection Hnode as <-.
    assert (current_ns q1 = current_ns p) as Hns.
    { assert (extends p q1) as Hext; [| apply Hext].
      eapply for_each_extends; [| exact Hdecs].
      apply Forall_forall. intros d _ r r'. apply visit_decorator_extends. }
    unfold in_namespace in Hrun. simpl in Hrun. rewrite !Hns in Hrun.
    destruct (for_each (visit E) body _) as [[[] q] | e] eqn:Hbody; [| done].
    injection Hrun as <-. simpl.
    destruct Hx as [<- | Hx].
    + assert (extends (set_current_ns (join_ns (current_ns p) name)
                (add_node (join_ns (current_ns p) name) q1)) q) as Hext.
      { eapply for_each_extends; [| exact Hbody].
        apply Forall_forall. intros y _. apply visit_extends. }
      apply Hext. simpl. set_solver.
    + by apply (for_each_declared body IHb _ _ Hbody).
  - simpl in Hrun. unfold in_namespace in Hrun.
    destruct (for_each _ _ _) as [[[] q] | e] eqn:Hbody; [| done].
    injection Hrun as <-. simpl.
    by apply (for_each_declared body IHb _ _ Hbody).
  - by apply (for_each_declared children IHc _ _ Hrun).
Qed.

(** ** What a call leaves behind *)

Lemma last_called_names_add_edges_to (names : list string) (p : Processor) :
  last_called_names (add_edges_to names p) = last_called_names p.
Proof.
  unfold add_edges_to. revert p.
  induction names as [| name names IH]; intros p; simpl; [done |].
  by rewrite IH.
Qed.

Lemma last_called_names_call_pointer (pointer : string) (p : Processor) :
  last_called_names (call_pointer E pointer p) = last_called_names p.
Proof.
  unfold call_pointer. destruct (def_manager E !! pointer) as [d |]; [| done].
  case_bool_decide; [rewrite last_called_names_add_edges_to |];
    by destruct (is_callable d).
Qed.

Lemma last_called_names_call_pointers (l : list string) (q : Processor) :
  last_called_names (foldl (λ q pointer, call_pointer E pointer q) q l) =
  last_called_names q.
Proof.
  revert q. induction l as [| pointer l IH]; intros q; simpl; [done |].
  by rewrite IH, last_called_names_call_pointer.
Qed.

(** X5: a call that resolves to some names records them as the last
    called names; a call that resolves to none returns before that
    assignment, so the names of the last resolved call stay in place. *)
Theorem resolve_call_last_called_names (n func : node) (p : Processor) :
  last_called_names (resolve_call E n func p) =
  match retrieve_call_names E p n with
  | [] => last_called_names p
  | names => names
  end.
Proof.
  unfold resolve_call.
  destruct (retrieve_call_names E p n) as [| name names].
  - unfold call_fallback. destruct (_ && _);
      [apply last_called_names_add_edges_to |].
    destruct (getattr_id func); [| done]. by destruct (_ && _).
  - by rewrite last_called_names_call_pointers.
Qed.

(** X6: the fallbacks are tried only when the callee resolves to no name
    at all.  When it resolves to names none of which has a Definition,
    every candidate is skipped and the graph stays as it was, even if
    the callee is a built-in name or an attribute of an external
    module. *)
Theorem resolve_call_without_definitions (n func : node) (p : Processor) :
  retrieve_call_names E p n ≠ [] →
  (∀ pointer, pointer ∈ retrieve_call_names E p n →
     def_manager E !! pointer = None) →
  graph (resolve_call E n func p) = graph p.
Proof.
  intros Hnames Hdefs. unfold resolve_call.
  destruct (retrieve_call_names E p n) as [| name names]; [done |].
  change (graph p) with (graph (set_last_called_names (name :: names) p)).
  generalize (set_last_called_names (name :: names) p). intros q.
  revert q Hdefs. generalize (name :: names). clear.
  induction l as [| pointer l IH]; intros q Hdefs; simpl; [done |].
  rewrite IH.
  - unfold call_pointer. by rewrite (Hdefs pointer (list_elem_of_here _ _)).
  - intros x Hx. apply Hdefs. by apply list_elem_of_further.
Qed.

(** ** When the reachable-function query raises *)

Lemma reachable_items_missing (p : Processor)
    (items : list (string * Definition_)) (name : string) (defi : Definition_) :
  NoDup items.*1 →
  (name, defi) ∈ items → is_function_def defi = true →
  closured p !! get_ns defi = None →
  ∀ reachable names, name ∉ names →
    reachable_items p (reachable, names) items = Raise TypeError.
Proof.
  intros Hnodup Hin Hfun Hnone.
  induction items as [| [name0 defi0] items IH]; intros reachable names Hnot.
  - by apply elem_of_nil in Hin.
  - rewrite fmap_cons in Hnodup. apply NoDup_cons in Hnodup as [Hfresh Hnodup].
    simpl in Hfresh. simpl.
    apply elem_of_cons in Hin as [[= <- <-] | Hin].
    + rewrite Hfun, bool_decide_eq_false_2 by done. simpl. by rewrite Hnone.
    + assert (name ≠ name0) as Hne.
      { intros ->. apply Hfresh. apply list_elem_of_fmap. by exists (name0, defi). }
      destruct (is_function_def defi0 && negb (bool_decide (name0 ∈ names)));
        [| by apply IH].
      destruct (closured p !! get_ns defi0); [| done].
      apply IH; [done | done | set_solver].
Qed.

Lemma reachable_items_Raise_inv (p : Processor)
    (items : list (string * Definition_)) (e : error) :
  ∀ reachable names,
    reachable_items p (reachable, names) items = Raise e →
    e = TypeError ∧
    ∃ name defi, (name, defi) ∈ items ∧ is_function_def defi = true ∧
                 (name ∉ names) ∧ closured p !! get_ns defi = None.
Proof.
  induction items as [| [name0 defi0] items IH]; intros reachable names Hrun;
    [done |].
  simpl in Hrun.
  destruct (is_function_def defi0 && negb (bool_decide (name0 ∈ names)))
    eqn:Hcount.
  - apply andb_true_iff in Hcount as [Hfun Hnew].
    apply negb_true_iff, bool_decide_eq_false in Hnew.
    destruct (closured p !! get_ns defi0) as [ids |] eqn:Hids.
    + apply IH in Hrun as (-> & name & defi & Hin & ? & Hnot & ?).
      split; [done |]. exists name, defi.
      split_and!; [by apply list_elem_of_further | done | set_solver | done].
    + injection Hrun as <-. split; [done |]. exists name0, defi0.
      split_and!; [apply list_elem_of_here | done..].
  - apply IH in Hrun as (-> & name & defi & Hin & ? & Hnot & ?).
    split; [done |]. exists name, defi.
    split_and!; [by apply list_elem_of_further | done..].
Qed.

(** One scope of the walk that does not raise: its counted definitions
    all have a closure entry, and the names seen so far are kept up. *)
Lemma reachable_items_scope_Ok (p : Processor) (inner : list ScopeItem)
    (s : ScopeItem) (reachable names reachable' names' : gset string) :
  (∀ nm, nm ∈ names ↔ ∃ s' defi', s' ∈ inner ∧
     get_defs s' !! nm = Some defi' ∧ is_function_def defi' = true) →
  reachable_items p (reachable, names) (map_to_list (get_defs s)) =
    Ok (reachable', names') →
  (∀ name defi, counted_in inner s name defi →
     is_Some (closured p !! get_ns defi)) ∧
  (∀ nm, nm ∈ names' ↔ ∃ s' defi', s' ∈ (inner ++ [s])%list ∧
     get_defs s' !! nm = Some defi' ∧ is_function_def defi' = true).
Proof.
  intros Hnames Hrun.
  assert (∀ name defi, (name, defi) ∈ map_to_list (get_defs s) →
            is_function_def defi = true → name ∉ names →
            is_Some (closured p !! get_ns defi)) as Hclo.
  { intros name defi Hin Hfun Hnot.
    destruct (closured p !! get_ns defi) as [ids |] eqn:Hids; [by eexists |].
    rewrite (reachable_items_missing p _ name defi
               (NoDup_fst_map_to_list _) Hin Hfun Hids reachable names Hnot)
      in Hrun. done. }
  split.
  - intros name defi Hcount.
    apply (counted_in_items inner s names) in Hcount as (? & ? & ?); [| done].
    by apply (Hclo name).
  - destruct (reachable_items_spec p (map_to_list (get_defs s))
                (NoDup_fst_map_to_list _) reachable names Hclo)
      as (r1 & n1 & Hrun1 & _ & Hnames1).
    rewrite Hrun in Hrun1. injection Hrun1 as <- <-.
    intros nm. rewrite Hnames1, Hnames. split.
    + intros [(s' & defi' & Hin & ?) | (defi & Hin & ?)].
      * exists s', defi'. split; [| done]. apply elem_of_app. by left.
      * exists s, defi. apply elem_of_map_to_list in Hin.
        split; [| done]. apply elem_of_app. right. apply list_elem_of_here.
    + intros (s' & defi' & Hin & Hdef & Hfun).
      apply elem_of_app in Hin as [Hin | Hin].
      * left. by exists s', defi'.
      * apply list_elem_of_singleton in Hin as ->.
        right. exists defi'. by rewrite elem_of_map_to_list.
Qed.

Lemma reachable_scopes_Raise_inv (p : Processor) (chain : list ScopeItem)
    (e : error) :
  ∀ (inner : list ScopeItem) reachable names,
    (∀ nm, nm ∈ names ↔ ∃ s' defi', s' ∈ inner ∧
       get_defs s' !! nm = Some defi' ∧ is_function_def defi' = true) →
    reachable_scopes p (reachable, names) chain = Raise e →
    e = TypeError ∧
    ∃ (pre : list ScopeItem) s post name defi,
      chain = (pre ++ s :: post)%list ∧
      counted_in (inner ++ pre)%list s name defi ∧
      closured p !! get_ns defi = None.
Proof.
  induction chain as [| s chain IH]; intros inner reachable names Hnames Hrun;
    [done |].
  simpl in Hrun.
  destruct (reachable_items p (reachable, names) (map_to_list (get_defs s)))
    as [[r1 n1] | e1] eqn:Hitems.
  - destruct (reachable_items_scope_Ok p inner s _ _ _ _ Hnames Hitems)
      as [_ Hnames1].
    apply (IH (inner ++ [s])%list) in Hrun
      as (-> & pre & s' & post & name & defi & -> & Hcount & Hnone); [| done].
    split; [done |]. exists (s :: pre), s', post, name, defi.
    split_and!; [done | | done]. by rewrite <- app_assoc in Hcount.
  - injection Hrun as <-.
    apply reachable_items_Raise_inv in Hitems
      as (-> & name & defi & Hin & Hfun & Hnot & Hnone).
    split; [done |]. exists [], s, chain, name, defi.
    split_and!; [done | | done].
    rewrite app_nil_r. by apply (counted_in_items inner s names).
Qed.

Lemma reachable_scopes_missing (p : Processor) (chain : list ScopeItem) :
  ∀ (inner pre : list ScopeItem) s post name defi reachable names,
    (∀ nm, nm ∈ names ↔ ∃ s' defi', s' ∈ inner ∧
       get_defs s' !! nm = Some defi' ∧ is_function_def defi' = true) →
    chain = (pre ++ s :: post)%list →
    counted_in (inner ++ pre)%list s name defi →
    closured p !! get_ns defi = None →
    reachable_scopes p (reachable, names) chain = Raise TypeError.
Proof.
  induction chain as [| s0 chain IH];
    intros inner pre s post name defi reachable names Hnames Heq Hcount Hnone.
  { by destruct pre. }
  simpl.
  destruct (reachable_items p (reachable, names) (map_to_list (get_defs s0)))
    as [[r1 n1] | e1] eqn:Hitems.
  - destruct (reachable_items_scope_Ok p inner s0 _ _ _ _ Hnames Hitems)
      as [Hclo Hnames1].
    destruct pre as [| s1 pre]; simpl in Heq; injection Heq as -> ->.
    + rewrite app_nil_r in Hcount.
      destruct (Hclo name defi Hcount) as [ids Hids]. congruence.
    + apply (IH (inner ++ [s1])%list pre s post name defi); [done | done | | done].
      by rewrite <- app_assoc.
  - by apply reachable_items_Raise_inv in Hitems as [-> _].
Qed.

(** X7: the only exception of the reachable-function query is the
    [TypeError] of iterating a missing closure entry, and it is raised
    exactly when one of the function definitions the walk collects has
    no entry in the closure. *)
Theorem get_all_reachable_functions_raises_iff (p : Processor) (e : error) :
  get_all_reachable_functions E p = Raise e ↔
  e = TypeError ∧
  ∃ name defi, collected (scopes_from E (current_ns p)) name defi ∧
               closured p !! get_ns defi = None.
Proof.
  assert (∀ nm : string, nm ∈ (∅ : gset string) ↔
            ∃ s' defi', s' ∈ ([] : list ScopeItem) ∧
              get_defs s' !! nm = Some defi' ∧ is_function_def defi' = true)
    as Hnames.
  { intros nm. split; [set_solver |].
    intros (s' & ? & Hin & _). by apply elem_of_nil in Hin. }
  unfold get_all_reachable_functions. split.
  - intros Hrun.
    destruct (reachable_scopes p (∅, ∅) (scopes_from E (current_ns p)))
      as [[r n] | e'] eqn:Hscopes; [done |].
    injection Hrun as <-.
    apply (reachable_scopes_Raise_inv p _ e' []) in Hscopes
      as (-> & pre & s & post & name & defi & Heq & Hcount & Hnone); [| done].
    split; [done |]. exists name, defi. split; [| done]. by exists pre, s, post.
  - intros (-> & name & defi & (pre & s & post & Heq & Hcount) & Hnone).
    by rewrite (reachable_scopes_missing p _ [] pre s post name defi ∅ ∅
                  Hnames Heq Hcount Hnone).
Qed.

Lemma scope_chain_head (s : ScopeItem) : ∃ outer, scope_chain s = s :: outer.
Proof. destruct s as [d [s' |]]; simpl; eauto. Qed.

(** X8: whenever the query returns, the result holds the whole closure
    of every function defined in the scope of the current namespace
    itself: no scope lies inside it, so nothing shadows these. *)
Theorem get_all_reachable_functions_local (p p' : Processor)
    (reachable : gset string) (s : ScopeItem) (name : string)
    (defi : Definition_) :
  get_all_reachable_functions E p = Ok (reachable, p') →
  scopes E !! current_ns p = Some s →
  get_defs s !! name = Some defi →
  is_function_def defi = true →
  ∃ ids, closured p !! get_ns defi = Some ids ∧ ∀ x, x ∈ ids → x ∈ reachable.
Proof.
  intros Hrun Hscope Hdef Hfun.
  assert (∀ nm : string, nm ∈ (∅ : gset string) ↔
            ∃ s' defi', s' ∈ ([] : list ScopeItem) ∧
              get_defs s' !! nm = Some defi' ∧ is_function_def defi' = true)
    as Hnames.
  { intros nm. split; [set_solver |].
    intros (s' & ? & Hin & _). by apply elem_of_nil in Hin. }
  unfold get_all_reachable_functions in Hrun.
  destruct (reachable_scopes p (∅, ∅) (scopes_from E (current_ns p)))
    as [[r n] | e'] eqn:Hscopes; [| done].
  injection Hrun as <- <-.
  assert (∀ (pre : list ScopeItem) s0 post name0 defi0,
            scopes_from E (current_ns p) = (pre ++ s0 :: post)%list →
            counted_in ([] ++ pre)%list s0 name0 defi0 →
            is_Some (closured p !! get_ns defi0)) as Hclo.
  { intros pre s0 post name0 defi0 Heq Hcount.
    destruct (closured p !! get_ns defi0) as [ids |] eqn:Hids; [by eexists |].
    rewrite (reachable_scopes_missing p _ [] pre s0 post name0 defi0 ∅ ∅
               Hnames Heq Hcount Hids) in Hscopes. done. }
  destruct (reachable_scopes_spec p _ [] ∅ ∅ Hnames Hclo)
    as (r' & n' & Hrun' & Hreach).
  rewrite Hscopes in Hrun'. injection Hrun' as <- <-.
  destruct (scope_chain_head s) as [outer Hchain].
  assert (scopes_from E (current_ns p) = ([] ++ s :: outer)%list) as Heq
    by (unfold scopes_from; by rewrite Hscope).
  assert (counted_in ([] ++ []) s name defi) as Hcount.
  { split_and!; [done | done |]. intros s' ? Hin. by apply elem_of_nil in Hin. }
  destruct (Hclo [] s outer name defi Heq Hcount) as [ids Hids].
  exists ids. split; [done |]. intros x Hx. apply Hreach. right.
  by exists [], s, outer, name, defi, ids.
Qed.

(** ** Candidate paths *)

(** X9: the candidate paths keep the entries of the closure apart: when
    the closure of the chain's root lists each namespace once, as the
    iteration of a set does, no two candidates coincide, and there are
    as many candidates as entries. *)
Theorem get_full_attr_names_NoDup (p : Processor) (n : node) :
  (∀ ns ids, closured p !! ns = Some ids → NoDup ids) →
  NoDup (get_full_attr_names E p n) ∧
  ∀ id defi ids,
    getattr_id (chain_root n) = Some id →
    get_def E (current_ns p) id = Some defi →
    closured p !! get_ns defi = Some ids →
    length (get_full_attr_names E p n) = length ids.
Proof.
  intros Hclo. unfold get_full_attr_names.
  pose proof (attr_loop_root "" n) as Hroot.
  destruct (attr_loop "" n) as [name root]. simpl in Hroot. subst root.
  split.
  - destruct (getattr_id (chain_root n)) as [id |]; [| apply NoDup_nil_2].
    destruct (get_def E (current_ns p) id) as [defi |]; [| apply NoDup_nil_2].
    destruct (closured p !! get_ns defi) as [ids |] eqn:Hids;
      [| apply NoDup_nil_2].
    apply NoDup_fmap_2; [| by eapply Hclo].
    intros a b Heq. by apply append_cancel_r in Heq.
  - intros id defi ids Hid Hdef Hids. rewrite Hid, Hdef, Hids.
    by rewrite length_fmap.
Qed.

(** ** Termination of a run *)

Lemma analyze_submodules_mono (run run' : string → Stores → option (result Stores)) :
  (∀ m s r, run m s = Some r → run' m s = Some r) →
  ∀ imps s r,
    analyze_submodules E run imps s = Some r →
    analyze_submodules E run' imps s = Some r.
Proof.
  intros Hrun. induction imps as [| imp imps IH]; intros s r Hsub; simpl in *.
  - done.
  - case_bool_decide; [by apply IH |].
    case_bool_decide; [by apply IH |].
    destruct (run imp s) as [[s1 | e] |] eqn:Himp; [| | done].
    + rewrite (Hrun _ _ _ Himp). by apply IH.
    + by rewrite (Hrun _ _ _ Himp).
Qed.

Lemma analyze_fuel_mono (fuel : nat) :
  ∀ m s r, analyze E fuel m s = Some r → analyze E (S fuel) m s = Some r.
Proof.
  induction fuel as [| fuel IH]; intros m s r Hrun; [done |].
  simpl in Hrun. simpl.
  destruct (trees E !! m) as [tree |]; [| done].
  destruct (visit E tree _) as [[[] p'] | e]; [| done].
  by apply (analyze_submodules_mono (analyze E fuel)).
Qed.

(** X10: a run ends, also when modules import each other in a cycle: on
    a module not yet analysed it yields one and the same outcome (final
    stores or exception) at every recursion bound above the number of
    modules with a file that are not yet analysed. *)
Theorem analyze_terminates (m : string) (s : Stores) :
  m ∉ modules_analyzed s →
  ∃ r, ∀ fuel,
    (size (dom (trees E) ∖ modules_analyzed s) < fuel)%nat →
    analyze E fuel m s = Some r.
Proof.
  intros Hm.
  destruct (analyze_enough_fuel E
              (size (dom (trees E) ∖ modules_analyzed s)) m s) as [r Hr];
    [done | done |].
  exists r. intros fuel Hfuel.
  induction Hfuel as [| fuel _ IH]; [done |].
  by apply analyze_fuel_mono.
Qed.

(** ** Each module once *)

Lemma analyze_submodules_guarded (R : Stores → Stores → Prop)
    (run : string → Stores → option (result Stores)) :
  (∀ s, R s s) →
  (∀ s1 s2 s3, R s1 s2 → R s2 s3 → R s1 s3) →
  (∀ m s s', m ∉ modules_analyzed s → is_Some (trees E !! m) →
     run m s = Some (Ok s') → R s s') →
  ∀ imps s s', analyze_submodules E run imps s = Some (Ok s') → R s s'.
Proof.
  intros Hrefl Htrans Hrun.
  induction imps as [| imp imps IH]; intros s s' Hsub; simpl in Hsub.
  - injection Hsub as <-. apply Hrefl.
  - case_bool_decide as Hin; [by apply IH |].
    case_bool_decide as Hfile; [by apply IH |].
    destruct (run imp s) as [[s1 | e] |] eqn:Himp; [| done | done].
    eapply Htrans; [| by apply IH].
    apply (Hrun imp); [done | | done].
    by destruct (trees E !! imp).
Qed.

Lemma analyze_analysed_once (fuel : nat) :
  ∀ m s s', m ∉ modules_analyzed s →
    analyze E fuel m s = Some (Ok s') →
    ∃ ms, analysed_once E s s' (m :: ms).
Proof.
  induction fuel as [| fuel IH]; intros m s s' Hm Hrun; [done |].
  apply analyze_unfold in Hrun
    as (fuel' & tree & p' & [= <-] & Htree & Hvisit & Hsub).
  apply visit_extends in Hvisit as (_ & _ & _ & Han & Hev & _).
  simpl in Han, Hev.
  apply (analyze_submodules_guarded (λ s1 s2, ∃ ms, analysed_once E s1 s2 ms))
    in Hsub as (ms & Hev' & Han' & Hnodup & Hms).
  - exists ms. split_and!.
    + rewrite Hev', Hev. unfold module_events.
      by rewrite bind_cons, <- !app_assoc.
    + rewrite Han', Han. set_solver.
    + apply NoDup_cons. split; [| done].
      intros Hin. destruct (Hms m Hin) as [Hnot _]. apply Hnot.
      rewrite Han. by apply elem_of_union_l, elem_of_singleton.
    + intros x Hx. apply elem_of_cons in Hx as [-> | Hx].
      * split; [done | by rewrite Htree].
      * destruct (Hms x Hx) as [Hnot ?]. rewrite Han in Hnot.
        split; [set_solver | done].
  - intros s1. exists []. split_and!;
      [by rewrite app_nil_r | set_solver | constructor |].
    intros x Hx. by apply elem_of_nil in Hx.
  - intros s1 s2 s3 (ms1 & He1 & Ha1 & Hn1 & Hm1) (ms2 & He2 & Ha2 & Hn2 & Hm2).
    exists (ms1 ++ ms2)%list. split_and!.
    + rewrite He2, He1. unfold module_events. by rewrite bind_app, app_assoc.
    + rewrite Ha2, Ha1. set_solver.
    + apply NoDup_app. split_and!; [done | | done].
      intros x Hx1 Hx2. destruct (Hm2 x Hx2) as [Hnot _]. apply Hnot.
      rewrite Ha1. by apply elem_of_union_l, elem_of_list_to_set.
    + intros x Hx. apply elem_of_app in Hx as [Hx | Hx]; [by apply Hm1 |].
      destruct (Hm2 x Hx) as [Hnot ?]. rewrite Ha1 in Hnot.
      split; [set_solver | done].
  - intros m' s1 s2 Hm' _ Hrun'.
    destruct (IH m' s1 s2 Hm' Hrun') as [ms Hms]. by exists (m' :: ms).
Qed.

(** X11: a completed run on a module not yet analysed constructs a
    processor for, and visits the tree of, each module at most once:
    the modules it analyses are pairwise distinct, each has a file, and
    none was in the analysed set when the run began. *)
Theorem analyze_each_module_once (fuel : nat) (m : string) (s s' : Stores) :
  m ∉ modules_analyzed s →
  analyze E fuel m s = Some (Ok s') →
  ∃ ms,
    events s' = (events s ++ module_events (m :: ms))%list ∧
    NoDup (m :: ms) ∧
    ∀ x, x ∈ m :: ms → (x ∉ modules_analyzed s) ∧ is_Some (trees E !! x).
Proof.
  intros Hm Hrun.
  destruct (analyze_analysed_once fuel m s s' Hm Hrun) as (ms & ? & _ & ? & ?).
  by exists ms.
Qed.

(** ** Lambda ordinals *)

Lemma counters_foldl {A} (f : A → Processor → Processor) (l : list A)
    (p : Processor) :
  (∀ a q, lambda_counter (stores (f a q)) = lambda_counter (stores q)) →
  lambda_counter (stores (foldl (λ q a, f a q) p l)) = lambda_counter (stores p).
Proof.
  intros Hf. revert p. induction l as [| a l IH]; intros p; simpl; [done |].
  by rewrite IH, Hf.
Qed.

Lemma counters_add_edges_to (names : list string) (p : Processor) :
  lambda_counter (stores (add_edges_to names p)) = lambda_counter (stores p).
Proof. by apply (counters_foldl (λ name q, add_edge (current_ns q) name q)). Qed.

Lemma counters_decorator_edges (decorator : node) (p : Processor) :
  lambda_counter (stores (decorator_edges E decorator p)) =
  lambda_counter (stores p).
Proof.
  apply (counters_foldl decoded_edges). intros [d | r] q; simpl; [| done].
  apply counters_add_edges_to.
Qed.

Lemma counters_resolve_call (n func : node) (p : Processor) :
  lambda_counter (stores (resolve_call E n func p)) = lambda_counter (stores p).
Proof.
  unfold resolve_call. destruct (retrieve_call_names E p n) as [| name names].
  - unfold call_fallback. destruct (_ && _); [apply counters_add_edges_to |].
    destruct (getattr_id func); [| done]. by destruct (_ && _).
  - rewrite (counters_foldl (call_pointer E)); [done |].
    intros pointer q. unfold call_pointer.
    destruct (def_manager E !! pointer) as [d |]; [| done].
    case_bool_decide; [rewrite counters_add_edges_to |];
      by destruct (is_callable d).
Qed.

Lemma counters_frame_refl (p : Processor) : counters_frame p p.
Proof. by split. Qed.

Lemma counters_frame_trans (p1 p2 p3 : Processor) :
  counters_frame p1 p2 → counters_frame p2 p3 → counters_frame p1 p3.
Proof.
  intros [Hns1 H1] [Hns2 H2]. split; [congruence |].
  intros ns Hlt. rewrite H2, H1; [done | done | by rewrite Hns1].
Qed.

Lemma counters_frame_same (p p' : Processor) :
  current_ns p' = current_ns p →
  lambda_counter (stores p') = lambda_counter (stores p) →
  counters_frame p p'.
Proof. intros Hns Hc. split; [done |]. intros ns _. by rewrite Hc. Qed.

Lemma counters_frame_in_namespace (name : string) (m : M unit) :
  (∀ p p', m p = Ok (tt, p') → counters_frame p p') →
  ∀ p p', in_namespace name m p = Ok (tt, p') → counters_frame p p'.
Proof.
  intros Hm p p' Hrun. unfold in_namespace in Hrun.
  destruct (m _) as [[[] q] | e] eqn:Hq; [| done].
  injection Hrun as <-. destruct (Hm _ _ Hq) as [_ Hframe].
  split; [done |]. intros ns Hlt. simpl. rewrite Hframe; [done |].
  simpl. unfold join_ns. rewrite !length_append. lia.
Qed.

Lemma visit_counters_frame (n : node) :
  ∀ p p', visit E n p = Ok (tt, p') → counters_frame p p'.
Proof.
  induction n as [id | value attr IH | func args kws IHf IHa IHk | body IH
                 | name decs body IHd IHb | name body IHb | children IHc]
    using node_ind'; intros p p' Hrun; simpl in Hrun.
  - injection Hrun as <-. apply counters_frame_refl.
  - by apply IH.
  - apply bind_Ok in Hrun as ([] & q1 & Hargs & Hrun).
    apply bind_Ok in Hrun as ([] & q2 & Hkws & Hrun).
    apply bind_Ok in Hrun as ([] & q3 & Hfunc & Hrun).
    injection Hrun as <-.
    eapply counters_frame_trans.
    { by eapply (for_each_rel counters_frame (visit E) args
                   counters_frame_refl counters_frame_trans). }
    eapply counters_frame_trans.
    { eapply (for_each_rel counters_frame _ kws
                counters_frame_refl counters_frame_trans); [| exact Hkws].
      eapply Forall_impl; [exact IHk |]. by intros [k v]. }
    eapply counters_frame_trans; [by apply IHf |].
    apply counters_frame_same;
      [apply extends_resolve_call | apply counters_resolve_call].
  - apply bind_Ok in Hrun as (counter & q1 & Hinc & Hrun).
    apply bind_Ok in Hrun as ([] & q2 & Hnode & Hrun).
    injection Hnode as <-.
    unfold inc_lambda_counter in Hinc.
    destruct (scopes E !! current_ns p); [| done]. injection Hinc as <- <-.
    eapply counters_frame_trans;
      [| by eapply (counters_frame_in_namespace _ (visit E body))].
    split; [done |]. intros ns Hlt. simpl.
    rewrite lookup_insert_ne; [done |]. intros Heq.
    rewrite <- Heq in Hlt. by apply Nat.lt_irrefl in Hlt.
  - apply bind_Ok in Hrun as ([] & q1 & Hdecs & Hrun).
    apply bind_Ok in Hrun as ([] & q2 & Hnode & Hrun).
    injection Hnode as <-.
    eapply counters_frame_trans.
    { eapply (for_each_rel counters_frame _ decs
                counters_frame_refl counters_frame_trans); [| exact Hdecs].
      eapply Forall_impl; [exact IHd |]. intros d Hd r r' Hstep.
      apply bind_Ok in Hstep as ([] & r1 & Hv & Hstep).
      injection Hstep as <-.
      eapply counters_frame_trans; [by apply Hd |].
      apply counters_frame_same;
        [apply extends_decorator_edges | apply counters_decorator_edges]. }
    eapply counters_frame_trans;
      [| eapply (counters_frame_in_namespace _ (for_each (visit E) body));
         [| exact Hrun] ].
    + by apply counters_frame_same.
    + by apply (for_each_rel counters_frame (visit E) body
                  counters_frame_refl counters_frame_trans).
  - eapply (counters_frame_in_namespace _ (for_each (visit E) body));
      [| exact Hrun].
    by apply (for_each_rel counters_frame (visit E) body
                counters_frame_refl counters_frame_trans).
  - by eapply (for_each_rel counters_frame (visit E) children
                 counters_frame_refl counters_frame_trans).
Qed.

(** X12: the visit of a lambda advances the counter of the scope of the
    current namespace by exactly one, whatever lambdas its body holds
    (they count in the scope of the lambda itself), and the node it
    registers, named by the new ordinal, is in the graph when the visit
    returns.  In a namespace without a scope the visit raises
    [AttributeError]. *)
Theorem visit_Lambda_ordinal (body : node) (p : Processor) :
  let ordinal := S (default 0 (lambda_counter (stores p) !! current_ns p)) in
  (scopes E !! current_ns p = None →
   visit E (Lambda body) p = Raise AttributeError) ∧
  ∀ p', visit E (Lambda body) p = Ok (tt, p') →
    lambda_counter (stores p') !! current_ns p = Some ordinal ∧
    join_ns (current_ns p) (get_lambda_name E ordinal) ∈ nodes (graph p').
Proof.
  intros ordinal. split.
  - intros Hnone. simpl. unfold bind, inc_lambda_counter. by rewrite Hnone.
  - intros p' Hrun. simpl in Hrun.
    apply bind_Ok in Hrun as (counter & q1 & Hinc & Hrun).
    apply bind_Ok in Hrun as ([] & q2 & Hnode & Hrun).
    injection Hnode as <-.
    unfold inc_lambda_counter in Hinc.
    destruct (scopes E !! current_ns p); [| done]. injection Hinc as <- <-.
    fold ordinal in Hrun. unfold in_namespace in Hrun. simpl in Hrun.
    destruct (visit E body _) as [[[] q] | e] eqn:Hbody; [| done].
    injection Hrun as <-. simpl. split.
    + apply visit_counters_frame in Hbody as [_ Hframe].
      rewrite Hframe; simpl; [apply lookup_insert_eq |].
      unfold join_ns. rewrite !length_append. simpl. lia.
    + apply visit_extends in Hbody as (_ & _ & _ & _ & _ & Hnodes & _).
      apply Hnodes. simpl. set_solver.
Qed.

(** ** Where the visitor raises *)






(** ** Which callers are nodes *)

Lemma calls_from_current_refl (p : Processor) : calls_from_current p p.
Proof. split; auto. Qed.

Lemma calls_from_current_trans (p1 p2 p3 : Processor) :
  calls_from_current p1 p2 → calls_from_current p2 p3 →
  calls_from_current p1 p3.
Proof.
  intros [Hns1 H1] [Hns2 H2]. split; [congruence |].
  intros a b Hin. destruct (H2 a b Hin) as [Hin2 | ->].
  - by apply H1.
  - by right.
Qed.

Lemma calls_from_current_adds_edges (p p' : Processor) (T : string → Prop) :
  current_ns p' = current_ns p → adds_edges p p' T → calls_from_current p p'.
Proof.
  intros Hns Hadd. split; [done |]. intros a b Hin.
  apply Hadd in Hin as [Hin | [-> _]]; auto.
Qed.

Lemma calls_from_current_foldl {A} (f : A → Processor → Processor)
    (l : list A) (p : Processor) :
  (∀ a q, calls_from_current q (f a q)) →
  calls_from_current p (foldl (λ q a, f a q) p l).
Proof.
  intros Hf. revert p. induction l as [| a l IH]; intros p; simpl.
  - apply calls_from_current_refl.
  - eapply calls_from_current_trans; [apply Hf | apply IH].
Qed.

Lemma calls_from_current_add_edges_to (names : list string) (p : Processor) :
  calls_from_current p (add_edges_to names p).
Proof.
  eapply calls_from_current_adds_edges;
    [apply current_ns_add_edges_to | apply adds_edges_add_edges_to].
Qed.

(** Every edge a call adds leaves the current namespace, whichever of
    the resolved names, the attribute path or the built-in it goes to. *)
Lemma calls_from_current_resolve_call (n func : node) (p : Processor) :
  calls_from_current p (resolve_call E n func p).
Proof.
  unfold resolve_call. destruct (retrieve_call_names E p n) as [| name names].
  - unfold call_fallback. destruct (_ && _);
      [apply calls_from_current_add_edges_to |].
    destruct (getattr_id func); [| apply calls_from_current_refl].
    destruct (_ && _); [| apply calls_from_current_refl].
    eapply calls_from_current_adds_edges; [done | apply adds_edges_add_edge].
  - eapply calls_from_current_trans;
      [| apply (calls_from_current_foldl (call_pointer E))].
    + split; auto.
    + intros pointer q. eapply calls_from_current_adds_edges;
        [apply current_ns_call_pointer | apply adds_edges_call_pointer].
Qed.

Lemma calls_from_current_decorator_edges (decorator : node) (p : Processor) :
  calls_from_current p (decorator_edges E decorator p).
Proof.
  eapply calls_from_current_adds_edges; [| apply adds_edges_decorator_edges].
  apply extends_decorator_edges.
Qed.

Lemma callers_registered_refl (p : Processor) : callers_registered p p.
Proof. split_and!; auto. Qed.

Lemma callers_registered_trans (p1 p2 p3 : Processor) :
  callers_registered p1 p2 → callers_registered p2 p3 →
  callers_registered p1 p3.
Proof.
  intros (Hns1 & Hno1 & H1) (Hns2 & Hno2 & H2).
  split_and!; [congruence | by transitivity (nodes (graph p2)) |].
  intros a b Hin. destruct (H2 a b Hin) as [Hin2 | [-> | Hnode]].
  - destruct (H1 a b Hin2) as [? | [? | Hnode]]; auto.
  - auto.
  - auto.
Qed.

Lemma callers_registered_from_current (p p' : Processor) :
  extends p p' → calls_from_current p p' → callers_registered p p'.
Proof.
  intros (_ & _ & _ & _ & _ & Hnodes & _) [Hns Hnew].
  split_and!; [done | done |].
  intros a b Hin. destruct (Hnew a b Hin); auto.
Qed.

(** A body visited under a namespace registered just before: the callers
    of its edges are that namespace or nodes registered in the body. *)
Lemma callers_registered_in_namespace (name : string) (m : M unit)
    (p p' : Processor) :
  (∀ q q', m q = Ok (tt, q') → callers_registered q q') →
  in_namespace name m (add_node (join_ns (current_ns p) name) p) = Ok (tt, p') →
  callers_registered p p'.
Proof.
  intros Hm Hrun. unfold in_namespace in Hrun.
  destruct (m _) as [[[] q] | e] eqn:Hq; [| done].
  injection Hrun as <-. destruct (Hm _ _ Hq) as (_ & Hnodes & Hnew).
  simpl in Hnodes, Hnew.
  split_and!; [done | set_solver |].
  intros a b Hin. destruct (Hnew a b Hin) as [? | [-> | ?]]; auto.
  right. right. apply Hnodes. set_solver.
Qed.

Lemma visit_callers_registered (n : node) :
  class_free n = true →
  ∀ p p', visit E n p = Ok (tt, p') → callers_registered p p'.
Proof.
  induction n as [id | value attr IH | func args kws IHf IHa IHk | body IH
                 | name decs body IHd IHb | name body IHb | children IHc]
    using node_ind'; simpl; intros Hfree p p' Hrun.
  - injection Hrun as <-. apply callers_registered_refl.
  - by apply IH.
  - apply andb_true_iff in Hfree as [Hfree Hfunc].
    apply andb_true_iff in Hfree as [Hargs Hkws].
    apply bind_Ok in Hrun as ([] & q1 & Hrun1 & Hrun).
    apply bind_Ok in Hrun as ([] & q2 & Hrun2 & Hrun).
    apply bind_Ok in Hrun as ([] & q3 & Hrun3 & Hrun).
    injection Hrun as <-.
    eapply callers_registered_trans.
    { by eapply (for_each_rel callers_registered (visit E) args
                   callers_registered_refl callers_registered_trans
                   (Forall_forallb_impl _ _ _ IHa Hargs)). }
    eapply callers_registered_trans.
    { eapply (for_each_rel callers_registered _ kws
                callers_registered_refl callers_registered_trans);
        [| exact Hrun2].
      eapply Forall_forallb_impl; [| exact Hkws].
      eapply Forall_impl; [exact IHk |]. by intros [k v]. }
    eapply callers_registered_trans; [by apply IHf |].
    apply callers_registered_from_current;
      [apply extends_resolve_call | apply calls_from_current_resolve_call].
  - apply bind_Ok in Hrun as (counter & q1 & Hinc & Hrun).
    apply bind_Ok in Hrun as ([] & q2 & Hnode & Hrun).
    injection Hnode as <-.
    unfold inc_lambda_counter in Hinc.
    destruct (scopes E !! current_ns p); [| done]. injection Hinc as <- <-.
    eapply callers_registered_trans;
      [| by eapply (callers_registered_in_namespace _ (visit E body));
           [apply IH | exact Hrun] ].
    split_and!; auto.
  - apply andb_true_iff in Hfree as [Hdecs Hbody].
    apply bind_Ok in Hrun as ([] & q1 & Hrun1 & Hrun).
    apply bind_Ok in Hrun as ([] & q2 & Hnode & Hrun).
    injection Hnode as <-.
    eapply callers_registered_trans.
    { eapply (for_each_rel callers_registered _ decs
                callers_registered_refl callers_registered_trans);
        [| exact Hrun1].
      eapply Forall_impl; [exact (Forall_forallb_impl _ _ _ IHd Hdecs) |].
      intros d Hd r r' Hstep.
      apply bind_Ok in Hstep as ([] & r1 & Hv & Hstep).
      injection Hstep as <-.
      eapply callers_registered_trans; [by apply Hd |].
      apply callers_registered_from_current;
        [apply extends_decorator_edges
        | apply calls_from_current_decorator_edges]. }
    eapply (callers_registered_in_namespace _ (for_each (visit E) body));
      [| exact Hrun].
    apply (for_each_rel callers_registered (visit E) body
             callers_registered_refl callers_registered_trans
             (Forall_forallb_impl _ _ _ IHb Hbody)).
  - done.
  - by apply (for_each_rel callers_registered (visit E) children
                callers_registered_refl callers_registered_trans
                (Forall_forallb_impl _ _ _ IHc Hfree)).
Qed.

(** X14: of every edge the visit of a tree without class definitions
    adds, the caller is the namespace the tree was entered in or a node
    of the graph: the function or lambda a call or decorator is met in
    was registered before its body was entered. *)
Theorem visit_edge_callers_registered (n : node) (p p' : Processor)
    (caller callee : string) :
  class_free n = true →
  visit E n p = Ok (tt, p') →
  (caller, callee) ∈ edges (graph p') →
  (caller, callee) ∉ edges (graph p) →
  caller = current_ns p ∨ caller ∈ nodes (graph p').
Proof.
  intros Hfree Hrun Hin Hnew.
  destruct (visit_callers_registered n Hfree p p' Hrun) as (_ & _ & Hreg).
  by destruct (Hreg caller callee Hin) as [? | ?].
Qed.





(** ** The walk of the reachable-function query *)

Lemma scope_walk_scope_chain (o : option ScopeItem) (chain : list ScopeItem) :
  scope_walk o chain →
  chain = match o with Some s => scope_chain s | None => [] end.
Proof.
  induction 1 as [| s chain _ IH]; [done |].
  destruct s as [defs [s' |]]; simpl in *; by rewrite IH.
Qed.

Lemma scope_walk_scopes_from (ns : string) (chain : list ScopeItem) :
  scope_walk (scopes E !! ns) chain → chain = scopes_from E ns.
Proof. intros Hwalk. by apply scope_walk_scope_chain in Hwalk. Qed.

(** X13: let [chain] be the scopes a walk along the parent references
    meets from the scope of the current namespace on, and let every
    function definition the query collects on it (one per name, the
    innermost) have a closure entry.  Then the query returns exactly the
    union of the closures of these definitions, and the processor, with
    the call graph and the other shared stores, is after the query what
    it was before. *)
Theorem get_all_reachable_functions_union (p : Processor)
    (chain : list ScopeItem) :
  scope_walk (scopes E !! current_ns p) chain →
  (∀ name defi, collected chain name defi →
     is_Some (closured p !! get_ns defi)) →
  ∃ reachable,
    get_all_reachable_functions E p = Ok (reachable, p) ∧
    ∀ x, x ∈ reachable ↔
      ∃ name defi ids,
        collected chain name defi ∧
        closured p !! get_ns defi = Some ids ∧ x ∈ ids.
Proof.
  intros Hwalk Hclo. apply scope_walk_scopes_from in Hwalk as ->.
  by apply get_all_reachable_functions_spec.
Qed.

End Further.

(** * The properties on the sample program *)

Import Sample.

(** What a run on [main] leaves in the shared stores. *)
Example sample_run :
  analyze env 3 "main" fresh = Some (Ok final) ∧
  events final = [EvTransitiveClosure "main"; EvVisit "main";
                  EvTransitiveClosure "sub"; EvVisit "sub"] ∧
  elements (edges (call_graph final)) =
    [("main", "main.deco"); ("main.g", "main.C.__init__");
     ("main.g", "main.C"); ("main.g", "main.f");
     ("main.g", "ext.path.join"); ("main.g", "<builtin>.len")].
Proof. split_and!; vm_compute; reflexivity. Qed.

Lemma has_ext_parent_iff_witness :
  ∃ level parent defi,
    level ∈ chain_levels ext_path_join ∧
    parent ∈ retrieve_parent_names env in_g level ∧
    def_manager env !! parent = Some defi ∧ is_ext_def defi = true.
Proof. apply has_ext_parent_iff. vm_compute. reflexivity. Defined.

Lemma non_identifier_root_adds_nothing_witness :
  let func := Attribute (Call (Name "f") [] []) "x" in
  is_Attribute func = true ∧ getattr_id (chain_root func) = None ∧
  get_full_attr_names env in_g func = [] ∧
  (retrieve_call_names env in_g (Call func [] []) = [] →
   resolve_call env (Call func [] []) func in_g = in_g).
Proof.
  split_and!; [reflexivity | reflexivity | |];
    apply (non_identifier_root_adds_nothing env in_g
             (Call (Attribute (Call (Name "f") [] []) "x") [] [])
             (Attribute (Call (Name "f") [] []) "x"));
    reflexivity.
Defined.

Lemma visit_Call_resolved_edges_witness :
  let n := Call (Name "C") [] [] in
  retrieve_call_names env in_g n ≠ [] ∧
  adds_edges in_g (resolve_call env n (Name "C") in_g) (λ callee,
    ∃ pointer pointer_def,
      pointer ∈ retrieve_call_names env in_g n ∧
      def_manager env !! pointer = Some pointer_def ∧
      (is_callable pointer_def = true ∧ callee = pointer ∨
       get_type pointer_def = CLS_DEF ∧
       callee ∈ find_cls_fun_ns env pointer (CLS_INIT env))).
Proof.
  split; [vm_compute; discriminate |].
  apply visit_Call_resolved_edges. vm_compute. discriminate.
Defined.

Lemma visit_Call_unresolved_edges_witness :
  let n := Call ext_path_join [] [] in
  retrieve_call_names env in_g n = [] ∧
  Forall (λ a, a ≠ "") (chain_attrs ext_path_join) ∧
  ("main.g", "ext.path.join") ∈
    edges (graph (resolve_call env n ext_path_join in_g)).
Proof.
  assert (Forall (λ a : string, a ≠ "") (chain_attrs ext_path_join)) as Hattrs
    by (repeat constructor; discriminate).
  split_and!; [reflexivity | exact Hattrs |].
  apply (visit_Call_unresolved_edges env in_g (Call ext_path_join [] [])
           ext_path_join eq_refl Hattrs).
  right. split; [reflexivity |].
  change (is_Attribute ext_path_join && has_ext_parent env in_g ext_path_join)
    with true.
  exists "ext", d_ext, ["ext"], "ext".
  split_and!; [reflexivity | reflexivity | reflexivity | left | reflexivity].
Defined.

Lemma visit_FunctionDef_decorator_edges_witness :
  visit env def_g at_main = Ok (tt, after def_g at_main) ∧
  ("main", "main.deco") ∈ edges (graph (after def_g at_main)).
Proof.
  assert (visit env def_g at_main = Ok (tt, after def_g at_main)) as Hrun
    by (vm_compute; reflexivity).
  split; [exact Hrun |].
  destruct (visit_FunctionDef_decorator_edges env _ _ _ _ _ Hrun) as [_ Hdec].
  destruct (Hdec [] (Name "deco") _ eq_refl)
    as (q0 & q1 & _ & _ & Hns & Hadd & Hsub & _).
  apply Hsub, Hadd. right. split; [by rewrite Hns |].
  exists d_deco, ["main.deco"].
  split_and!; [left | reflexivity | left].
Defined.

(** C3 as stated fails: inside [outer], the function [g] is decorated
    with [outer] and with a name that decodes to [g] itself.  The edge
    the second decorator adds goes from the enclosing namespace to the
    closure of [g]: from the decorator [outer] to the decorated
    function. *)
Lemma decorator_edge_to_decorated_counterexample :
  ¬ (∀ p' decorator d,
       visit Nested.env Nested.def_g Nested.in_outer = Ok (tt, p') →
       decorator ∈ [Name "outer"; Name "g"] →
       IsDef d ∈ decode_node Nested.env Nested.in_outer decorator →
       (get_ns d, join_ns (current_ns Nested.in_outer) "g") ∈ edges (graph p') →
       (get_ns d, join_ns (current_ns Nested.in_outer) "g")
         ∈ edges (graph Nested.in_outer)).
Proof.
  intros Hnone.
  assert (("main.outer", "main.outer.g") ∉ edges (graph Nested.in_outer))
    as Hnew by (vm_compute; discriminate).
  apply Hnew.
  apply (Hnone Nested.after_g (Name "outer") Nested.d_outer).
  - vm_compute. reflexivity.
  - left.
  - left.
  - vm_compute. reflexivity.
Qed.



Lemma visit_edge_callers_registered_witness :
  class_free def_g = true ∧
  visit env def_g at_main = Ok (tt, after def_g at_main) ∧
  ("main.g", "<builtin>.len") ∈ edges (graph (after def_g at_main)) ∧
  (("main.g", "<builtin>.len") ∉ edges (graph at_main)) ∧
  ("main.g" = current_ns at_main ∨ "main.g" ∈ nodes (graph (after def_g at_main))).
Proof.
  assert (visit env def_g at_main = Ok (tt, after def_g at_main)) as Hrun
    by (vm_compute; reflexivity).
  assert (("main.g", "<builtin>.len") ∈ edges (graph (after def_g at_main)))
    as Hin by (vm_compute; reflexivity).
  assert (("main.g", "<builtin>.len") ∉ edges (graph at_main)) as Hnew
    by (vm_compute; discriminate).
  split_and!; [reflexivity | exact Hrun | exact Hin | exact Hnew |].
  exact (visit_edge_callers_registered env def_g at_main _ _ _
           eq_refl Hrun Hin Hnew).
Defined.

Lemma visit_Call_children_first_witness :
  visit env call_chain in_g = Ok (tt, after call_chain in_g) ∧
  ∃ q, visit env (Call (Name "f") [] []) in_g = Ok (tt, q) ∧
       edges (graph q) ⊆ edges (graph (after call_chain in_g)).
Proof.
  assert (visit env call_chain in_g = Ok (tt, after call_chain in_g)) as Hrun
    by (vm_compute; reflexivity).
  split; [exact Hrun |].
  exact (proj2 (visit_Call_children_first env) (Name "f") in_g _ Hrun).
Defined.

(** C6: with a closure that lacks the entry of a function definition in
    scope, the reachable-function query raises [TypeError] instead of
    skipping the definition; the decorator and attribute-path lookups of
    the same mapping skip a missing entry. *)
Theorem get_all_reachable_functions_raises :
  closured stale_in_g !! "main.g.f" = None ∧
  get_all_reachable_functions stale_env stale_in_g = Raise TypeError ∧
  decoded_edges (IsDef d_gf) stale_in_g = stale_in_g.
Proof. split_and!; vm_compute; reflexivity. Qed.

(** C7: with the same closure the query returns no union.  The walk
    from the scope of [g] meets the scope of [g] and the scope of
    [main]; it collects the inner [f], whose closure entry is missing,
    and among others [g], whose closure is [main.g]; the query raises
    [TypeError] at the first and returns nothing. *)
Theorem get_all_reachable_functions_no_union :
  scope_walk (scopes stale_env !! current_ns stale_in_g) [scope_g; scope_main] ∧
  collected [scope_g; scope_main] "f" d_gf ∧
  closured stale_in_g !! get_ns d_gf = None ∧
  collected [scope_g; scope_main] "g" d_g ∧
  closured stale_in_g !! get_ns d_g = Some ["main.g"] ∧
  ∀ reachable p',
    get_all_reachable_functions stale_env stale_in_g ≠ Ok (reachable, p').
Proof.
  split_and!.
  - change (scopes stale_env !! current_ns stale_in_g) with (Some scope_g).
    apply scope_walk_step, scope_walk_step, scope_walk_end.
  - exists [], scope_g, [scope_main]. unfold counted_in.
    split_and!; [reflexivity | reflexivity | reflexivity |].
    intros s' defi' Hin. by apply elem_of_nil in Hin.
  - reflexivity.
  - exists [scope_g], scope_main, []. unfold counted_in.
    split_and!; [reflexivity | reflexivity | reflexivity |].
    intros s' defi' Hin Hdef. apply list_elem_of_singleton in Hin as ->.
    vm_compute in Hdef. discriminate.
  - reflexivity.
  - intros reachable p' Hrun.
    assert (get_all_reachable_functions stale_env stale_in_g = Raise TypeError)
      as Hraise by (vm_compute; reflexivity).
    congruence.
Qed.

(** C9 as stated fails: the run on [main] analyses the submodule [sub]
    with a processor of its own, whose constructor computes the closure
    a second time. *)
Lemma closure_computed_once_counterexample :
  ¬ (∀ s', analyze env 3 "main" fresh = Some (Ok s') →
           closure_computations (events s') = 1).
Proof.
  intros Honce. specialize (Honce final).
  assert (analyze env 3 "main" fresh = Some (Ok final)) as Hrun
    by (vm_compute; reflexivity).
  apply Honce in Hrun. vm_compute in Hrun. discriminate.
Qed.

Lemma closure_computed_per_module_witness :
  analyze env 3 "main" fresh = Some (Ok final) ∧
  ∃ ms,
    events final = (events fresh ++ module_events ("main" :: ms))%list ∧
    modules_analyzed final = list_to_set ("main" :: ms) ∪ modules_analyzed fresh ∧
    closure_computations (events final) =
      closure_computations (events fresh) + S (length ms).
Proof.
  assert (analyze env 3 "main" fresh = Some (Ok final)) as Hrun
    by (vm_compute; reflexivity).
  split; [exact Hrun |].
  exact (proj1 (closure_computed_per_module env) 3 "main" fresh final Hrun).
Defined.

(** ** The further properties on the sample program *)


Lemma visit_call_free_edges_witness :
  let tree := Generic [FunctionDef "deco" [] [];
                       ClassDef "C" [FunctionDef "__init__" [] []];
                       Lambda (Name "x")] in
  call_free tree = true ∧
  visit env tree at_main = Ok (tt, after tree at_main) ∧
  edges (graph (after tree at_main)) = edges (graph at_main).
Proof.
  split_and!; [reflexivity | vm_compute; reflexivity |].
  apply (visit_call_free_edges env
           (Generic [FunctionDef "deco" [] [];
                     ClassDef "C" [FunctionDef "__init__" [] []];
                     Lambda (Name "x")]));
    [reflexivity | vm_compute; reflexivity].
Defined.

Lemma visit_new_edges_from_inside_witness :
  visit env def_g at_main = Ok (tt, after def_g at_main) ∧
  ("main.g", "main.f") ∈ edges (graph (after def_g at_main)) ∧
  (("main.g", "main.f") ∉ edges (graph at_main)) ∧
  ∃ suffix, "main.g" = current_ns at_main ++ suffix.
Proof.
  assert (visit env def_g at_main = Ok (tt, after def_g at_main)) as Hrun
    by (vm_compute; reflexivity).
  assert (("main.g", "main.f") ∈ edges (graph (after def_g at_main))) as Hin
    by (vm_compute; reflexivity).
  assert (("main.g", "main.f") ∉ edges (graph at_main)) as Hnew
    by (vm_compute; discriminate).
  split_and!; [exact Hrun | exact Hin | exact Hnew |].
  exact (visit_new_edges_from_inside env def_g at_main _ _ _ Hrun Hin Hnew).
Defined.

Lemma visit_registers_functions_witness :
  visit env tree_main at_main = Ok (tt, after tree_main at_main) ∧
  In "main.C.__init__" (declared (current_ns at_main) tree_main) ∧
  "main.C.__init__" ∈ nodes (graph (after tree_main at_main)).
Proof.
  assert (visit env tree_main at_main = Ok (tt, after tree_main at_main)) as Hrun
    by (vm_compute; reflexivity).
  assert (In "main.C.__init__" (declared (current_ns at_main) tree_main)) as Hin
    by (right; right; left; reflexivity).
  split_and!; [exact Hrun | exact Hin |].
  exact (visit_registers_functions env tree_main at_main _ _ Hrun Hin).
Defined.

Lemma resolve_call_without_definitions_witness :
  is_builtin Undefined.env "len" = true ∧
  retrieve_call_names Undefined.env Undefined.in_g Undefined.call_len ≠ [] ∧
  graph (resolve_call Undefined.env Undefined.call_len (Name "len") Undefined.in_g)
    = graph Undefined.in_g.
Proof.
  split_and!; [reflexivity | vm_compute; discriminate |].
  apply resolve_call_without_definitions; [vm_compute; discriminate |].
  intros pointer Hin. apply list_elem_of_singleton in Hin as ->. reflexivity.
Defined.

Lemma get_all_reachable_functions_local_witness :
  ∃ reachable,
    get_all_reachable_functions env in_g = Ok (reachable, in_g) ∧
    scopes env !! current_ns in_g = Some scope_g ∧
    get_defs scope_g !! "f" = Some d_gf ∧
    is_function_def d_gf = true ∧
    ∃ ids, closured in_g !! get_ns d_gf = Some ids ∧
           ∀ x, x ∈ ids → x ∈ reachable.
Proof.
  eexists. split; [vm_compute; reflexivity |].
  split_and!; [reflexivity | reflexivity | reflexivity |].
  eapply (get_all_reachable_functions_local env in_g in_g _ scope_g "f" d_gf);
    [vm_compute | ..]; reflexivity.
Defined.

Lemma get_full_attr_names_NoDup_witness :
  (∀ ns ids, closured in_g !! ns = Some ids → NoDup ids) ∧
  NoDup (get_full_attr_names env in_g ext_path_join) ∧
  length (get_full_attr_names env in_g ext_path_join) = 1.
Proof.
  assert (∀ ns ids, closured in_g !! ns = Some ids → NoDup ids) as Hclo.
  { change (map_Forall (λ _ (ids : list string), NoDup ids) (closured in_g)).
    apply (bool_decide_unpack _). vm_compute. reflexivity. }
  destruct (get_full_attr_names_NoDup env in_g ext_path_join Hclo) as [Hnd Hlen].
  split_and!; [exact Hclo | exact Hnd |].
  exact (Hlen "ext" d_ext ["ext"] eq_refl eq_refl eq_refl).
Defined.

Lemma analyze_terminates_witness :
  ("main" ∉ modules_analyzed fresh) ∧
  ∃ r, ∀ fuel,
    (size (dom (trees env) ∖ modules_analyzed fresh) < fuel)%nat →
    analyze env fuel "main" fresh = Some r.
Proof.
  assert ("main" ∉ modules_analyzed fresh) as Hm by (vm_compute; discriminate).
  split; [exact Hm |]. exact (analyze_terminates env "main" fresh Hm).
Defined.

Lemma analyze_each_module_once_witness :
  ("main" ∉ modules_analyzed fresh) ∧
  analyze env 3 "main" fresh = Some (Ok final) ∧
  ∃ ms,
    events final = (events fresh ++ module_events ("main" :: ms))%list ∧
    NoDup ("main" :: ms) ∧
    ∀ x, x ∈ "main" :: ms →
      (x ∉ modules_analyzed fresh) ∧ is_Some (trees env !! x).
Proof.
  assert ("main" ∉ modules_analyzed fresh) as Hm by (vm_compute; discriminate).
  assert (analyze env 3 "main" fresh = Some (Ok final)) as Hrun
    by (vm_compute; reflexivity).
  split_and!; [exact Hm | exact Hrun |].
  exact (analyze_each_module_once env 3 "main" fresh final Hm Hrun).
Defined.

Lemma visit_Lambda_ordinal_witness :
  visit env (Lambda (Name "x")) at_main
    = Ok (tt, after (Lambda (Name "x")) at_main) ∧
  lambda_counter (stores (after (Lambda (Name "x")) at_main))
    !! current_ns at_main = Some 1 ∧
  "main.<lambda1>" ∈ nodes (graph (after (Lambda (Name "x")) at_main)).
Proof.
  assert (visit env (Lambda (Name "x")) at_main
            = Ok (tt, after (Lambda (Name "x")) at_main)) as Hrun
    by (vm_compute; reflexivity).
  split; [exact Hrun |].
  exact (proj2 (visit_Lambda_ordinal env (Name "x") at_main) _ Hrun).
Defined.

Lemma get_all_reachable_functions_union_witness :
  scope_walk (scopes env !! current_ns in_g) [scope_g; scope_main] ∧
  (∀ name defi, collected [scope_g; scope_main] name defi →
     is_Some (closured in_g !! get_ns defi)) ∧
  ∃ reachable,
    get_all_reachable_functions env in_g = Ok (reachable, in_g) ∧
    ∀ x, x ∈ reachable ↔
      ∃ name defi ids,
        collected [scope_g; scope_main] name defi ∧
        closured in_g !! get_ns defi = Some ids ∧ x ∈ ids.
Proof.
  assert (scope_walk (scopes env !! current_ns in_g) [scope_g; scope_main])
    as Hwalk.
  { change (scopes env !! current_ns in_g) with (Some scope_g).
    apply scope_walk_step, scope_walk_step, scope_walk_end. }
  assert (∀ name defi, collected [scope_g; scope_main] name defi →
            is_Some (closured in_g !! get_ns defi)) as Hclo
    by (apply closure_covers_collected; vm_compute; reflexivity).
  split_and!; [exact Hwalk | exact Hclo |].
  exact (get_all_reachable_functions_union env in_g _ Hwalk Hclo).
Defined.
